(** * Cleaning pipeline and statistics of the NBA data-science project

    Shallow embedding of [src/data_cleaning.py] ([clean_ACTIVE_PLAYERS],
    [clean_advanced_team_stats]) and of the correlation computation of
    [src/descriptive_stats.py].

    A pandas DataFrame is modelled as a header (column names with the dtype
    that [read_csv] inferred) and a list of rows; each row keeps its pandas
    index label next to its cells.  Floating-point numbers are modelled as
    exact rationals [Q]; NaN is the missing marker [NA]. *)

From Stdlib Require Import List Bool Arith Lia ZArith QArith Qround String Ascii.
From Stdlib Require Import Reals Qreals Lqa.
From Stdlib Require Import Sorted Permutation.
Import ListNotations.
Open Scope string_scope.
Open Scope Q_scope.

(** ** Data model *)

Inductive cell :=
| Num (q : Q)
| Str (s : string)
| NA.

Inductive dtype := Numeric | Object.

Definition row := list cell.

Record table := mk_table {
  columns : list (string * dtype);
  rows : list (nat * row)
}.

(** Python exceptions the embedded functions can raise. *)
Inductive py_error := KeyError | ZeroDivisionError | FileNotFoundError.

Inductive result (A : Type) :=
| Ok (a : A)
| Err (e : py_error).
Arguments Ok {A} a.
Arguments Err {A} e.

Definition bind {A B} (m : result A) (f : A -> result B) : result B :=
  match m with Ok a => f a | Err e => Err e end.

Notation "x <- m ;; k" := (bind m (fun x => k))
  (at level 61, m at next level, right associativity).

(** Value equality as pandas compares cells ([drop_duplicates] treats two
    NaN as equal, and numbers by value). *)
Definition cell_eqb (a b : cell) : bool :=
  match a, b with
  | Num x, Num y => Qeq_bool x y
  | Str s, Str t => String.eqb s t
  | NA, NA => true
  | _, _ => false
  end.

Fixpoint row_eqb (r s : row) : bool :=
  match r, s with
  | [], [] => true
  | a :: r', b :: s' => cell_eqb a b && row_eqb r' s'
  | _, _ => false
  end.

Definition cell_at (i : nat) (r : row) : cell := nth i r NA.

Fixpoint col_index (name : string) (cols : list (string * dtype)) : option nat :=
  match cols with
  | [] => None
  | (n, _) :: cs =>
      if String.eqb n name then Some 0%nat
      else option_map S (col_index name cs)
  end.

(** [df[col]] with NaN skipped: the non-missing numbers of column [i]. *)
Definition column_values (i : nat) (rs : list (nat * row)) : list Q :=
  flat_map (fun r => match cell_at i (snd r) with Num q => [q] | _ => [] end) rs.

(** ** Numeric utilities (numpy/pandas semantics on exact numbers) *)

Fixpoint insert_sorted (x : Q) (l : list Q) : list Q :=
  match l with
  | [] => [x]
  | y :: ys => if Qle_bool x y then x :: l else y :: insert_sorted x ys
  end.

Definition sort_Q (l : list Q) : list Q := fold_right insert_sorted [] l.

(** [Series.median()]: NaN on an empty series, the middle value for an odd
    count, the mean of the two middle values for an even count. *)
Definition median (xs : list Q) : option Q :=
  let v := sort_Q xs in
  let n := List.length v in
  match n with
  | O => None
  | _ => if Nat.even n
         then Some ((nth (n / 2 - 1)%nat v 0 + nth (n / 2)%nat v 0) / 2)
         else Some (nth (n / 2)%nat v 0)
  end.

(** [Series.quantile(p)] with the default linear interpolation. *)
Definition quantile (p : Q) (xs : list Q) : option Q :=
  let v := sort_Q xs in
  let n := List.length v in
  match n with
  | O => None
  | S m =>
      let h := p * inject_Z (Z.of_nat m) in
      let lo := Z.to_nat (Qfloor h) in
      let frac := h - inject_Z (Z.of_nat lo) in
      let a := nth lo v 0 in
      if (lo + 1 <? n)%nat then Some (a + frac * (nth (lo + 1)%nat v 0 - a))
      else Some a
  end.

(** [lower_bound = Q1 - 1.5 * IQR], [upper_bound = Q3 + 1.5 * IQR]. *)
Definition iqr_bounds (xs : list Q) : option (Q * Q) :=
  match quantile (1 # 4) xs, quantile (3 # 4) xs with
  | Some q1, Some q3 =>
      let iqr := q3 - q1 in Some (q1 - (3 # 2) * iqr, q3 + (3 # 2) * iqr)
  | _, _ => None
  end.

(** [(df[col] >= lower_bound) & (df[col] <= upper_bound)]: any comparison
    with NaN (a missing cell or NaN bounds) is false. *)
Definition in_bounds (b : option (Q * Q)) (c : cell) : bool :=
  match b, c with
  | Some (lo, hi), Num v => Qle_bool lo v && Qle_bool v hi
  | _, _ => false
  end.

(** ** Text helpers: Python's [str.strip], [str.upper] and [str.title]
    on ASCII text *)

(** [str.isspace] on ASCII: tab, newline, vertical tab, form feed, carriage
    return, the separators 0x1c-0x1f and space. *)
Definition is_space (c : ascii) : bool :=
  let n := nat_of_ascii c in
  (((9 <=? n) && (n <=? 13)) || ((28 <=? n) && (n <=? 32)))%nat.

Definition is_upper (c : ascii) : bool :=
  let n := nat_of_ascii c in ((65 <=? n) && (n <=? 90))%nat.

Definition is_lower (c : ascii) : bool :=
  let n := nat_of_ascii c in ((97 <=? n) && (n <=? 122))%nat.

Definition is_cased (c : ascii) : bool := is_upper c || is_lower c.

Definition to_upper (c : ascii) : ascii :=
  if is_lower c then ascii_of_nat (nat_of_ascii c - 32)%nat else c.

Definition to_lower (c : ascii) : ascii :=
  if is_upper c then ascii_of_nat (nat_of_ascii c + 32)%nat else c.

Fixpoint lstrip (l : list ascii) : list ascii :=
  match l with
  | [] => []
  | c :: l' => if is_space c then lstrip l' else l
  end.

Definition strip_chars (l : list ascii) : list ascii := rev (lstrip (rev (lstrip l))).

(** [str.title]: a cased character is upper-cased when the previous
    character is not cased and lower-cased otherwise. *)
Fixpoint title_chars (prev_cased : bool) (l : list ascii) : list ascii :=
  match l with
  | [] => []
  | c :: l' =>
      if is_cased c
      then (if prev_cased then to_lower c else to_upper c) :: title_chars true l'
      else c :: title_chars false l'
  end.

Definition on_chars (f : list ascii -> list ascii) (s : string) : string :=
  string_of_list_ascii (f (list_ascii_of_string s)).

Definition py_strip (s : string) : string := on_chars strip_chars s.
Definition py_title (s : string) : string := on_chars (title_chars false) s.
Definition py_upper (s : string) : string := on_chars (map to_upper) s.

(** ** Type coercions *)

Definition digit_val (c : ascii) : option Z :=
  let n := nat_of_ascii c in
  if ((48 <=? n) && (n <=? 57))%nat then Some (Z.of_nat (n - 48)) else None.

Fixpoint digits_value (l : list ascii) (acc : Z) : option Z :=
  match l with
  | [] => Some acc
  | c :: l' =>
      match digit_val c with
      | Some d => digits_value l' (acc * 10 + d)%Z
      | None => None
      end
  end.

Fixpoint split_dot (l : list ascii) : list ascii * option (list ascii) :=
  match l with
  | [] => ([], None)
  | c :: l' =>
      if Ascii.eqb c "."%char then ([], Some l')
      else let (ip, fp) := split_dot l' in (c :: ip, fp)
  end.

(** Unsigned decimal literal: digits, optionally a point and digits, with at
    least one digit. *)
Definition parse_unsigned (l : list ascii) : option Q :=
  match split_dot l with
  | (ip, None) =>
      match ip with
      | [] => None
      | _ => option_map inject_Z (digits_value ip 0)
      end
  | (ip, Some fp) =>
      match ip, fp with
      | [], [] => None
      | _, _ =>
          match digits_value ip 0, digits_value fp 0 with
          | Some a, Some b =>
              Some (inject_Z a + inject_Z b / inject_Z (10 ^ Z.of_nat (List.length fp)))
          | _, _ => None
          end
      end
  end.

(** The text [pd.to_numeric] turns into a number: a signed decimal literal,
    surrounding whitespace allowed.  Other numeric spellings ("1e3", "inf")
    are not modelled. *)
Definition parse_number (s : string) : option Q :=
  match strip_chars (list_ascii_of_string s) with
  | c :: l =>
      if Ascii.eqb c "-"%char then option_map Qopp (parse_unsigned l)
      else if Ascii.eqb c "+"%char then parse_unsigned l
      else parse_unsigned (c :: l)
  | [] => None
  end.

(** [pd.to_numeric(col, errors='coerce')] on one cell: numbers are kept,
    text that does not parse becomes NaN. *)
Definition to_numeric_cell (c : cell) : cell :=
  match c with
  | Num q => Num q
  | Str s => match parse_number s with Some q => Num q | None => NA end
  | NA => NA
  end.

(** [df[col].str.strip().str.upper()] *)
Definition strip_upper_cell (c : cell) : cell :=
  match c with
  | Str s => Str (py_upper (py_strip s))
  | _ => NA
  end.

(** [df[col].str.strip().str.title()]; the [.str] accessor maps a
    non-string cell to NaN. *)
Definition strip_title_cell (c : cell) : cell :=
  match c with
  | Str s => Str (py_title (py_strip s))
  | _ => NA
  end.

Definition digit_char (d : Z) : ascii := ascii_of_nat (48 + Z.to_nat d).

Fixpoint pos_digits (fuel : nat) (n : Z) (acc : list ascii) : list ascii :=
  match fuel with
  | O => acc
  | S f =>
      if (n <? 10)%Z then digit_char n :: acc
      else pos_digits f (n / 10)%Z (digit_char (n mod 10)%Z :: acc)
  end.

Definition z_digits (z : Z) : list ascii :=
  let a := Z.abs z in
  let ds := pos_digits (S (Z.to_nat (Z.log2 a))) a [] in
  if (z <? 0)%Z then "-"%char :: ds else ds.

(** [str(x)] of a cell: NaN prints as "nan", an integral float as "200.0";
    the shortest-repr digits of a non-integral float are not modelled and
    are printed as a fraction. *)
Definition py_str_cell (c : cell) : string :=
  match c with
  | Str s => s
  | NA => "nan"
  | Num q =>
      let r := Qred q in
      if (Zpos (Qden r) =? 1)%Z
      then string_of_list_ascii (z_digits (Qnum r) ++ ["."%char; "0"%char])
      else string_of_list_ascii (z_digits (Qnum r) ++ ["/"%char] ++ z_digits (Zpos (Qden r)))
  end.

(** [df['TEAM_NAME'].astype(str).str.strip()] *)
Definition str_strip_cell (c : cell) : cell := Str (py_strip (py_str_cell c)).

(** ** Column classification and positional helpers *)

Fixpoint indices_from (k : nat) (p : dtype -> bool) (cols : list (string * dtype))
  : list nat :=
  match cols with
  | [] => []
  | (_, d) :: cs => if p d then k :: indices_from (S k) p cs else indices_from (S k) p cs
  end.

Definition is_numeric (d : dtype) : bool := match d with Numeric => true | Object => false end.
Definition is_object (d : dtype) : bool := negb (is_numeric d).

(** [df.select_dtypes(include=[np.number]).columns], as positions. *)
Definition numeric_cols (t : table) : list nat := indices_from 0 is_numeric (columns t).
(** [df.select_dtypes(include=['object']).columns], as positions. *)
Definition categorical_cols (t : table) : list nat := indices_from 0 is_object (columns t).

Definition is_na (c : cell) : bool := match c with NA => true | _ => false end.

Definition map_rows (f : row -> row) (t : table) : table :=
  mk_table (columns t) (map (fun r => (fst r, f (snd r))) (rows t)).

Definition filter_rows (p : row -> bool) (t : table) : table :=
  mk_table (columns t) (filter (fun r => p (snd r)) (rows t)).

(** Replace the cell at position [i] by [f] of it. *)
Fixpoint update_at (i : nat) (f : cell -> cell) (r : row) : row :=
  match i, r with
  | _, [] => []
  | O, c :: cs => f c :: cs
  | S i', c :: cs => c :: update_at i' f cs
  end.

(** [df[col].fillna(v)] on the column at position [i]. *)
Definition fill_cell (v : cell) (c : cell) : cell := if is_na c then v else c.

(** ** [clean_ACTIVE_PLAYERS] *)

(** Step 1: [df.dropna(subset=['first_name', 'last_name'])]; a missing
    subset column raises [KeyError]. *)
Definition drop_missing_names (t : table) : result table :=
  match col_index "first_name" (columns t), col_index "last_name" (columns t) with
  | Some i, Some j =>
      Ok (filter_rows (fun r => negb (is_na (cell_at i r)) && negb (is_na (cell_at j r))) t)
  | _, _ => Err KeyError
  end.

(** [fillna] with a median that may be NaN: filling with NaN leaves the
    cell as it is. *)
Definition fill_median (m : option Q) (c : cell) : cell :=
  match m with Some q => fill_cell (Num q) c | None => c end.

(** [df[numeric_cols].fillna(df[numeric_cols].median())]: every median is
    taken from the table as it is when the statement runs. *)
Definition fill_numeric_medians (t : table) : table :=
  fold_left
    (fun acc i => map_rows (update_at i (fill_median (median (column_values i (rows t))))) acc)
    (numeric_cols t) t.

(** [for col in categorical_cols: df[col].fillna('Unknown', inplace=True)],
    with the pandas 2 behaviour where the in-place fill on [df[col]] reaches
    [df]. *)
Definition fill_categorical_unknown (t : table) : table :=
  fold_left (fun acc i => map_rows (update_at i (fill_cell (Str "Unknown"))) acc)
    (categorical_cols t) t.

(** Step 1 as a whole (the missing-value handling). *)
Definition handle_missing (t : table) : result table :=
  t1 <- drop_missing_names t ;;
  Ok (fill_categorical_unknown (fill_numeric_medians t1)).

(** Step 2: [df.drop_duplicates()] keeps the first row of every group of
    equal rows; the index labels of the kept rows are unchanged. *)
Fixpoint dedup_aux (seen : list row) (rs : list (nat * row)) : list (nat * row) :=
  match rs with
  | [] => []
  | r :: rs' =>
      if existsb (row_eqb (snd r)) seen then dedup_aux seen rs'
      else r :: dedup_aux (snd r :: seen) rs'
  end.

Definition drop_duplicates (t : table) : table :=
  mk_table (columns t) (dedup_aux [] (rows t)).

(** Step 3, one iteration of the loop: the bounds of column [i] are
    computed from the current [df], which is then filtered. *)
Definition outlier_step (i : nat) (rs : list (nat * row)) : list (nat * row) :=
  let b := iqr_bounds (column_values i rs) in
  filter (fun r => in_bounds b (cell_at i (snd r))) rs.

(** The loop [for col in numeric_cols: ... df = df[...]]. *)
Fixpoint outlier_loop (cols : list nat) (rs : list (nat * row)) : list (nat * row) :=
  match cols with
  | [] => rs
  | i :: cs => outlier_loop cs (outlier_step i rs)
  end.

Record report := mk_report {
  outliers_removed : nat;
  outliers_pct : Q
}.

(** The printed line [(original - len(df)) / original * 100]: Python's
    [/] raises [ZeroDivisionError] on a zero divisor. *)
Definition outlier_report (before after : nat) : result report :=
  match before with
  | O => Err ZeroDivisionError
  | _ => Ok (mk_report (before - after)
               (inject_Z (Z.of_nat (before - after)) / inject_Z (Z.of_nat before) * 100))
  end.

Definition clean_ACTIVE_PLAYERS (df : table) : result (table * report) :=
  t3 <- handle_missing df ;;
  let num := numeric_cols t3 in
  let cat := categorical_cols t3 in
  let t4 := drop_duplicates t3 in
  let original_before_outliers := List.length (rows t4) in
  let t5 := mk_table (columns t4) (outlier_loop num (rows t4)) in
  rep <- outlier_report original_before_outliers (List.length (rows t5)) ;;
  let t6 := fold_left (fun acc i => map_rows (update_at i strip_title_cell) acc) cat t5 in
  Ok (t6, rep).

(** [pd.read_csv] row labels [0, 1, ...]. *)
Definition indexed (rs : list row) : list (nat * row) := combine (seq 0 (List.length rs)) rs.

Definition weights_table : table :=
  mk_table [("first_name", Object); ("last_name", Object); ("weight", Numeric)]
    (indexed [[Str "a"; Str "a"; Num 200]; [Str "b"; Str "b"; Num 205];
              [Str "c"; Str "c"; Num 210]; [Str "d"; Str "d"; Num 215];
              [Str "e"; Str "e"; Num 600]]).

Definition empty_players : table :=
  mk_table [("first_name", Object); ("last_name", Object); ("weight", Object)] [].

(** ** [clean_advanced_team_stats] *)

Definition columns_to_keep : list string :=
  ["TEAM_NAME"; "GP"; "W"; "L"; "OFF_RATING"; "DEF_RATING"; "NET_RATING"; "W_RANK"; "L_RANK"].

Definition team_numeric_cols : list string :=
  ["GP"; "W"; "L"; "OFF_RATING"; "DEF_RATING"; "NET_RATING"].

Definition has_col (name : string) (t : table) : bool :=
  match col_index name (columns t) with Some _ => true | None => false end.

(** [df[[col for col in cols if col in df.columns]]] *)
Definition select_columns (keep : list string) (t : table) : table :=
  let existing := filter (fun c => has_col c t) keep in
  let idx := fun c => match col_index c (columns t) with Some i => i | None => O end in
  mk_table (map (fun c => nth (idx c) (columns t) (c, Object)) existing)
           (map (fun r => (fst r, map (fun c => cell_at (idx c) (snd r)) existing)) (rows t)).

(** Apply [f] to every cell of column [name] and give the column dtype [d]. *)
Definition update_col (name : string) (d : dtype) (f : cell -> cell) (t : table) : table :=
  match col_index name (columns t) with
  | Some i =>
      mk_table (map (fun nd => if String.eqb (fst nd) name then (name, d) else nd) (columns t))
               (rows (map_rows (update_at i f) t))
  | None => t
  end.

Definition col_cell (name : string) (t : table) (r : row) : cell :=
  match col_index name (columns t) with Some i => cell_at i r | None => NA end.

(** [df.dropna()]: drop every row with a missing cell. *)
Definition dropna_all (t : table) : table :=
  filter_rows (fun r => negb (existsb is_na r)) t.

(** [df[df['GP'] > 0]]; a comparison with NaN is false. *)
Definition gp_positive (t : table) : table :=
  if has_col "GP" t then
    filter_rows (fun r => match col_cell "GP" t r with
                          | Num v => negb (Qle_bool v 0)
                          | _ => false
                          end) t
  else t.

(** [df['W'] + df['L'] == df['GP']]; NaN compares unequal. *)
Definition wl_valid (t : table) (r : row) : bool :=
  match col_cell "W" t r, col_cell "L" t r, col_cell "GP" t r with
  | Num w, Num l, Num g => Qeq_bool (w + l) g
  | _, _, _ => false
  end.

(** The W + L = GP check: when the three columns exist, the number of
    violating rows, printed as a warning; the table is not changed (the
    filtering line is commented out in the source). *)
Definition wl_invalid_count (t : table) : option nat :=
  if has_col "W" t && has_col "L" t && has_col "GP" t
  then Some (List.length (filter (fun r => negb (wl_valid t (snd r))) (rows t)))
  else None.

(** The files the function reads and writes. *)
Record fs_state := mk_fs {
  input_csv : option table;   (* uncleaned_csv/advanced_team_stats.csv *)
  output_csv : option table   (* cleaned_csv/advanced_team_stats_CLEANED.csv *)
}.

(** The cleaning steps of the first [try] block, from the loaded table to
    the table it writes. *)
Definition advanced_cleaned (df : table) : table :=
  let t1 := select_columns columns_to_keep df in
  let t2 := if has_col "TEAM_NAME" t1 then update_col "TEAM_NAME" Object str_strip_cell t1 else t1 in
  let t3 := fold_left (fun acc c => if has_col c acc then update_col c Numeric to_numeric_cell acc else acc)
              team_numeric_cols t2 in
  let t4 := dropna_all t3 in
  gp_positive t4.

(** First block: load, clean, warn, write; a missing input file is caught
    and reported. Returns the new file state and the warning count. *)
Definition advanced_block1 (st : fs_state) : fs_state * option nat :=
  match input_csv st with
  | None => (st, None)
  | Some df =>
      let t := advanced_cleaned df in
      (mk_fs (input_csv st) (Some t), wl_invalid_count t)
  end.

(** Second block: load, select the columns, write to the same path. *)
Definition advanced_block2 (st : fs_state) : fs_state :=
  match input_csv st with
  | None => st
  | Some df => mk_fs (input_csv st) (Some (select_columns columns_to_keep df))
  end.

Definition clean_advanced_team_stats (st : fs_state) : fs_state * option nat :=
  let (st1, warn) := advanced_block1 st in (advanced_block2 st1, warn).

(** The scenario of the W + L = GP rule. *)
Definition wl_table : table :=
  mk_table [("GP", Numeric); ("W", Numeric); ("L", Numeric)]
    (indexed [[Num 10; Num 6; Num 4]; [Num 10; Num 7; Num 4]]).

(** A raw team table with a row of zero games and a row with a missing
    rating. *)
Definition raw_teams : table :=
  mk_table [("TEAM_NAME", Object); ("GP", Numeric); ("W", Numeric); ("L", Numeric);
            ("NET_RATING", Numeric)]
    (indexed [[Str " Nuggets "; Num 82; Num 57; Num 25; Num 5];
              [Str "Ghosts"; Num 0; Num 0; Num 0; Num 0];
              [Str "Bulls"; Num 82; Num 39; Num 43; NA]]).

(** ** [DataFrame.corr()] (Pearson, pairwise complete observations) *)

Definition sum_Q (l : list Q) : Q := fold_right Qplus 0 l.

Definition mean (l : list Q) : Q := sum_Q l / inject_Z (Z.of_nat (List.length l)).

(** Sum of squared deviations from the mean. *)
Definition ssq (l : list Q) : Q := sum_Q (map (fun x => (x - mean l) * (x - mean l)) l).

(** A column has zero variance when its non-missing values do not deviate
    from their mean. *)
Definition zero_variance (t : table) (i : nat) : bool := Qeq_bool (ssq (column_values i (rows t))) 0.

(** The rows where both columns hold a number. *)
Definition pair_values (t : table) (i j : nat) : list (Q * Q) :=
  flat_map (fun r => match cell_at i (snd r), cell_at j (snd r) with
                     | Num a, Num b => [(a, b)]
                     | _, _ => []
                     end) (rows t).

Definition sxy (ps : list (Q * Q)) : Q :=
  let mx := mean (map fst ps) in
  let my := mean (map snd ps) in
  sum_Q (map (fun p => (fst p - mx) * (snd p - my)) ps).

(** pandas' [nancorr]: NaN ([None]) without observations or when the
    divisor [sqrt(ssqdmx * ssqdmy)] is zero, otherwise
    [covxy / sqrt(ssqdmx * ssqdmy)]. *)
Definition pearson (ps : list (Q * Q)) : option R :=
  match ps with
  | [] => None
  | _ =>
      let d := ssq (map fst ps) * ssq (map snd ps) in
      if Qeq_bool d 0 then None else Some (Q2R (sxy ps) / sqrt (Q2R d))%R
  end.

(** [df[columns].corr()], as a matrix indexed by the positions in [cols]. *)
Definition corr_matrix (t : table) (cols : list nat) : list (list (option R)) :=
  map (fun i => map (fun j => pearson (pair_values t i j)) cols) cols.

Definition corr_entry (t : table) (cols : list nat) (a b : nat) : option (option R) :=
  match nth_error (corr_matrix t cols) a with
  | Some rw => nth_error rw b
  | None => None
  end.

(** The OutlierFilter as the spec words it: the bounds of every governed
    column are computed once, from the table at stage entry, and a row is
    kept iff it lies within all of them.  Used only for comparison with
    [outlier_loop]. *)
Definition outlier_filter_at_entry (cols : list nat) (rs : list (nat * row)) : list (nat * row) :=
  let bs := map (fun i => (i, iqr_bounds (column_values i rs))) cols in
  filter (fun r => forallb (fun ib => in_bounds (snd ib) (cell_at (fst ib) (snd r))) bs) rs.

(** Two numeric columns where the first column's removal narrows the
    second column's quartiles. *)
Definition cascade_table : table :=
  mk_table [("first_name", Object); ("last_name", Object); ("a", Numeric); ("b", Numeric)]
    (indexed [[Str "p"; Str "p"; Num 0; Num 0]; [Str "q"; Str "q"; Num 0; Num 0];
              [Str "r"; Str "r"; Num 0; Num 0]; [Str "s"; Str "s"; Num 0; Num 10];
              [Str "t"; Str "t"; Num 100; Num 10]]).

(** A row with a missing name carries a value that shifts the median. *)
Definition median_table : table :=
  mk_table [("first_name", Object); ("last_name", Object); ("weight", Numeric)]
    (indexed [[NA; Str "x"; Num 100]; [Str "b"; Str "b"; Num 10];
              [Str "c"; Str "c"; NA]]).

(** A numeric column without any value. *)
Definition all_missing_table : table :=
  mk_table [("first_name", Object); ("last_name", Object); ("weight", Numeric)]
    (indexed [[Str "a"; Str "a"; NA]; [Str "b"; Str "b"; NA]]).

(** Rows have one cell per column, and a numeric column holds no text. *)
Definition well_formed (t : table) : Prop :=
  forall k r, In (k, r) (rows t) ->
    List.length r = List.length (columns t) /\
    forall i n, nth_error (columns t) i = Some (n, Numeric) ->
      forall s, cell_at i r <> Str s.

(** ** Errors outside [py_error]: the exceptions of the other cleaning
    functions that escape their [try] blocks *)

Inductive ext_error :=
| PyError (e : py_error)
| TypeError
| AttributeError
| ValueError
| IndexError.

Inductive eresult (A : Type) :=
| EOk (a : A)
| EErr (e : ext_error).
Arguments EOk {A} a.
Arguments EErr {A} e.

Definition ebind {A B} (m : eresult A) (f : A -> eresult B) : eresult B :=
  match m with EOk a => f a | EErr e => EErr e end.

Notation "x <-- m ;;; k" := (ebind m (fun x => k))
  (at level 61, m at next level, right associativity).

(** ** [clean_league_standings] *)

Definition clinch_cols : list string :=
  ["ClinchIndicator"; "ClinchedConferenceTitle"; "ClinchedDivisionTitle"; "ClinchedPlayoffBirth"].

(** [df[col] = df[col].fillna(v)] with a text [v]: a numeric column in
    which a NaN is filled with text becomes an object column. *)
Definition fillna_text_col (name v : string) (t : table) : table :=
  match col_index name (columns t) with
  | Some i =>
      let d := if existsb (fun r => is_na (cell_at i (snd r))) (rows t) then Object
               else snd (nth i (columns t) (name, Object)) in
      update_col name d (fill_cell (Str v)) t
  | None => t
  end.

(** [df[numeric_cols] = df[numeric_cols].fillna(0)] *)
Definition fill_numeric_zero (t : table) : table :=
  fold_left (fun acc i => map_rows (update_at i (fill_cell (Num 0))) acc) (numeric_cols t) t.

(** [df.fillna(v, inplace=True)] on every column. *)
Definition fillna_all (v : cell) (t : table) : table := map_rows (map (fill_cell v)) t.

(** [df[name] = df[name].str. ...] when [name] is a column, with the
    cell function [f] of the string methods; the [.str] accessor of a
    non-object column raises [AttributeError]. *)
Definition str_accessor_col (f : cell -> cell) (name : string) (t : table) : eresult table :=
  match col_index name (columns t) with
  | Some i =>
      match snd (nth i (columns t) (name, Object)) with
      | Object => EOk (update_col name Object f t)
      | Numeric => EErr AttributeError
      end
  | None => EOk t
  end.

(** [df[name] = df[name].str.strip().str.title()] *)
Definition str_title_col (name : string) (t : table) : eresult table :=
  str_accessor_col strip_title_cell name t.

(** [df[name] = df[name].str.strip().str.upper()] *)
Definition str_upper_col (name : string) (t : table) : eresult table :=
  str_accessor_col strip_upper_cell name t.

(** [df = df[(df[name] <op> a) & (df[name] <op> b)]] when [name] is a
    column: a comparison of a text cell with a float raises [TypeError];
    a comparison with NaN is false. *)
Definition range_filter (name : string) (keep : Q -> bool) (t : table) : eresult table :=
  match col_index name (columns t) with
  | Some i =>
      if existsb (fun r => match cell_at i (snd r) with Str _ => true | _ => false end) (rows t)
      then EErr TypeError
      else EOk (filter_rows (fun r => match cell_at i r with Num v => keep v | _ => false end) t)
  | None => EOk t
  end.

(** [(df['WinPCT'] >= 0.0) & (df['WinPCT'] <= 1.0)] *)
Definition winpct_ok (v : Q) : bool := Qle_bool 0 v && Qle_bool v 1.

(** [(df['PointsPG'] > 60) & (df['PointsPG'] < 160)] *)
Definition ppg_ok (v : Q) : bool := negb (Qle_bool v 60) && negb (Qle_bool 160 v).

(** The body of the [try] block, from the loaded table to the table written. *)
Definition league_cleaned (df : table) : eresult table :=
  let t1 := fold_left (fun acc c => fillna_text_col c "No" acc) clinch_cols df in
  let t2 := fill_numeric_zero t1 in
  let t3 := fillna_all (Str "Unknown") t2 in
  t4 <-- str_title_col "TeamCity" t3 ;;;
  t5 <-- str_title_col "TeamName" t4 ;;;
  t6 <-- range_filter "WinPCT" winpct_ok t5 ;;;
  range_filter "PointsPG" ppg_ok t6.

(** The whole function: [None] when [uncleaned_csv/league_standings.csv]
    is missing ([FileNotFoundError] is caught and nothing is written),
    otherwise the table written to [cleaned_csv/league_standings_CLEANED.csv]. *)
Definition clean_league_standings (input : option table) : eresult (option table) :=
  match input with
  | None => EOk None
  | Some df => t <-- league_cleaned df ;;; EOk (Some t)
  end.

Definition standings_table : table :=
  mk_table [("TeamCity", Object); ("TeamName", Object); ("ClinchIndicator", Object);
            ("WinPCT", Numeric); ("PointsPG", Numeric)]
    (indexed [[Str " denver"; Str "nuggets "; NA; Num (7 # 10); Num 115];
              [Str "boston"; NA; Str "x"; Num (3 # 2); Num 120];
              [Str "miami"; Str "heat"; NA; NA; Num 110];
              [Str "utah"; Str "jazz"; NA; Num (1 # 2); NA]]).

(** A standings file whose [WinPCT] was written as text. *)
Definition standings_text_winpct : table :=
  mk_table [("TeamCity", Object); ("WinPCT", Object); ("PointsPG", Numeric)]
    (indexed [[Str "denver"; Str "55%"; Num 115]]).

(** ** [clean_get_all_teams], [clean_get_all_players_of_all_time],
    [clean_player_info_by_full_name] *)

(** The dtypes after [df.fillna(v)] with a text [v]: a numeric column in
    which a NaN was filled becomes an object column. *)
Fixpoint retype_filled (has_na : nat -> bool) (j : nat) (cols : list (string * dtype))
  : list (string * dtype) :=
  match cols with
  | [] => []
  | (n, d) :: cs => (n, if has_na j then Object else d) :: retype_filled has_na (S j) cs
  end.

(** [df.fillna(v, inplace=True)] with a text [v], dtypes included. *)
Definition fillna_text_df (v : string) (t : table) : table :=
  mk_table (retype_filled (fun j => existsb (fun r => is_na (cell_at j (snd r))) (rows t)) 0 (columns t))
           (rows (fillna_all (Str v) t)).

(** [df[name] = df[name].str.strip().str.title()] where reading
    [df[name]] raises [KeyError] when the column is absent. *)
Definition title_required (name : string) (t : table) : eresult table :=
  match col_index name (columns t) with
  | None => EErr (PyError KeyError)
  | Some _ => str_title_col name t
  end.

(** The common body: fill every missing value with ['Unknown'], drop the
    duplicate rows, then title-case the name columns in order; the
    result is the table written to the CSV. *)
Definition clean_names (names : list string) (df : table) : eresult table :=
  fold_left (fun acc n => ebind acc (title_required n)) names
    (EOk (drop_duplicates (fillna_text_df "Unknown" df))).

Definition clean_get_all_teams (df : table) : eresult table :=
  clean_names ["full_name"] df.

Definition clean_get_all_players_of_all_time (df : table) : eresult table :=
  clean_names ["first_name"; "last_name"] df.

Definition clean_player_info_by_full_name (df : table) : eresult table :=
  clean_names ["first_name"; "last_name"] df.

Definition players_table : table :=
  mk_table [("id", Numeric); ("first_name", Object); ("last_name", Object)]
    (indexed [[Num 1; Str " alex"; Str "abrines "]; [Num 2; NA; Str "x"];
              [Num 1; Str " alex"; Str "abrines "]]).

Definition teams_numeric_names : table :=
  mk_table [("id", Numeric); ("full_name", Numeric)] (indexed [[Num 1; Num 7]]).

(** ** [clean_single_player_by_id] *)

(** [df.drop(df.columns[0], axis=1)]; [df.columns[0]] raises [IndexError]
    on a table without columns. *)
Definition drop_first_col (t : table) : eresult table :=
  match columns t with
  | [] => EErr IndexError
  | _ :: cs => EOk (mk_table cs (map (fun r => (fst r, tl (snd r))) (rows t)))
  end.

(** [df[name] = df[name].astype(float)] when [name] is a column, where
    [py_float] is Python's [float] on a text ([None] when it raises
    [ValueError]); numbers and NaN are kept. *)
Definition astype_float_col (py_float : string -> option Q) (name : string) (t : table)
  : eresult table :=
  match col_index name (columns t) with
  | Some i =>
      if existsb (fun r => match cell_at i (snd r) with
                           | Str s => match py_float s with Some _ => false | None => true end
                           | _ => false
                           end) (rows t)
      then EErr ValueError
      else EOk (update_col name Numeric
                  (fun c => match c with
                            | Str s => match py_float s with Some q => Num q | None => NA end
                            | _ => c
                            end) t)
  | None => EOk t
  end.

Definition clean_single_player_by_id (py_float : string -> option Q) (df : table) : eresult table :=
  t1 <-- drop_first_col df ;;;
  let t2 := fill_numeric_zero t1 in
  let t3 := fill_categorical_unknown t2 in
  let t4 := drop_duplicates t3 in
  t5 <-- str_upper_col "TEAM_ABBREVIATION" t4 ;;;
  astype_float_col py_float "PLAYER_AGE" t5.

(** ** [descriptive_stats.py]: [calculate_descriptive_stats] *)

(** [(df[col] < lower_bound) | (df[col] > upper_bound)]; a comparison with
    NaN (a missing cell or NaN bounds) is false. *)
Definition out_of_bounds (b : option (Q * Q)) (c : cell) : bool :=
  match b, c with
  | Some (lo, hi), Num v => negb (Qle_bool lo v) || negb (Qle_bool v hi)
  | _, _ => false
  end.

Definition cell_value (c : cell) : option Q := match c with Num v => Some v | _ => None end.

Record insight := mk_insight {
  outlier_count : nat;
  outlier_pct : Q;
  outlier_values : list (option Q)   (* [None] for NaN *)
}.

(** The body of the loop over [numeric_cols] for one column: the bounds
    from the column's quartiles, the outlier rows, their number, their
    share of [len(df)] (an integer division by zero on an empty [df]
    raises [ZeroDivisionError]) and the first 10 outlier values. *)
Definition column_insight (i : nat) (rs : list (nat * row)) : result insight :=
  let b := iqr_bounds (column_values i rs) in
  let outliers := filter (fun r => out_of_bounds b (cell_at i (snd r))) rs in
  let count := List.length outliers in
  match List.length rs with
  | O => Err ZeroDivisionError
  | n => Ok (mk_insight count (inject_Z (Z.of_nat count) / inject_Z (Z.of_nat n) * 100)
                         (firstn 10 (map (fun r => cell_value (cell_at i (snd r))) outliers)))
  end.

(** The [insights] dictionary, as the list of [(col, insight)] pairs in
    the order of [numeric_cols]; the first error escapes. *)
Fixpoint calculate_insights (cols : list nat) (rs : list (nat * row)) : result (list (nat * insight)) :=
  match cols with
  | [] => Ok []
  | i :: cs =>
      ins <- column_insight i rs ;;
      rest <- calculate_insights cs rs ;;
      Ok ((i, ins) :: rest)
  end.

Definition count_Q (x : Q) (xs : list Q) : nat := List.length (filter (Qeq_bool x) xs).

(** [df[col].mode().iloc[0]]: pandas sorts the most frequent values
    (NaN excluded) and [iloc[0]] takes the smallest; scanning the sorted
    values and replacing the candidate only on a strictly larger count
    gives the same value. [None] when the column has no value. *)
Definition mode_step (xs : list Q) (acc : option (Q * nat)) (x : Q) : option (Q * nat) :=
  let c := count_Q x xs in
  match acc with
  | None => Some (x, c)
  | Some (m, cm) => if (cm <? c)%nat then Some (x, c) else acc
  end.

Definition mode_first (xs : list Q) : option Q :=
  option_map fst (fold_left (mode_step xs) (sort_Q xs) None).

(** ** [height_to_inches] ([analyze_active_players], and the same helper
    in [enhanced_visualizations.py]) *)

(** Digits with single underscores between them, as [int()] accepts them. *)
Fixpoint underscore_digits (l : list ascii) (acc : Z) : option Z :=
  match l with
  | [] => Some acc
  | c :: l' =>
      if Ascii.eqb c "_"%char then
        match l' with
        | d :: l'' =>
            match digit_val d with
            | Some v => underscore_digits l'' (acc * 10 + v)%Z
            | None => None
            end
        | [] => None
        end
      else
        match digit_val c with
        | Some v => underscore_digits l' (acc * 10 + v)%Z
        | None => None
        end
  end.

Definition py_int_unsigned (l : list ascii) : option Z :=
  match l with
  | d :: _ => match digit_val d with Some _ => underscore_digits l 0 | None => None end
  | [] => None
  end.

(** Python's [int(s)] on a text in base 10 ([None] when it raises
    [ValueError]): surrounding whitespace, an optional sign, then digits. *)
Definition py_int (s : string) : option Z :=
  match strip_chars (list_ascii_of_string s) with
  | c :: l =>
      if Ascii.eqb c "-"%char then option_map Z.opp (py_int_unsigned l)
      else if Ascii.eqb c "+"%char then py_int_unsigned l
      else py_int_unsigned (c :: l)
  | [] => None
  end.

(** Python's [s.split(sep)] on characters. *)
Fixpoint split_on (sep : ascii) (l : list ascii) : list (list ascii) :=
  match l with
  | [] => [[]]
  | c :: l' =>
      if Ascii.eqb c sep then [] :: split_on sep l'
      else match split_on sep l' with
           | p :: ps => (c :: p) :: ps
           | [] => [[c]]
           end
  end.

(** [height_to_inches(h)]: NaN gives [None], a number is returned as it
    is, a text without ["-"] gives [None], otherwise
    [feet, inches = h.split("-")] (a [ValueError] when there are not two
    parts) and [int(feet) * 12 + int(inches)]; every exception gives [None]. *)
Definition height_to_inches (h : cell) : option Q :=
  match h with
  | NA => None
  | Num q => Some q
  | Str s =>
      let l := list_ascii_of_string s in
      if negb (existsb (Ascii.eqb "-"%char) l) then None
      else match split_on "-"%char l with
           | [f; i] =>
               match py_int (string_of_list_ascii f), py_int (string_of_list_ascii i) with
               | Some a, Some b => Some (inject_Z (a * 12 + b))
               | _, _ => None
               end
           | _ => None
           end
  end.

(** ** A [clean_single_player_by_id] input *)

(** [float(s)] on the texts [int(s)] accepts (digits, with underscores
    between them), where both give the same value; [None] elsewhere. *)
Definition py_float_of_int_text (s : string) : option Q := option_map inject_Z (py_int s).

(** A table as [read_csv] loads it: the age ["2_1"] is not a number to its
    parser (no underscores), so [PLAYER_AGE] is an object column, while
    Python's [float] accepts it; the second season's age is missing. *)
Definition jokic_table : table :=
  mk_table [("Unnamed: 0", Numeric); ("SEASON_ID", Object); ("TEAM_ABBREVIATION", Object);
            ("PLAYER_AGE", Object); ("PTS", Numeric)]
    (indexed [[Num 0; Str "2015-16"; Str " den"; Str "2_1"; Num 720];
              [Num 1; Str "2016-17"; Str "den "; NA; NA]]).

(** ** Text as Python holds it: code points *)










(** ** Auxiliary definitions of the proofs *)

Definition update_all (g : nat -> cell -> cell) (js : list nat) (r : row) : row :=
  fold_left (fun r j => update_at j (g j) r) js r.

(** Position [j] of [l] holds a first occurrence: no row before it is equal. *)
Definition first_occurrence (l : list (nat * row)) (p : nat * (nat * row)) : bool :=
  negb (existsb (fun y => row_eqb (snd (snd p)) (snd y)) (firstn (fst p) l)).




(** A constant column against a varying one. *)
Definition constant_col_table : table :=
  mk_table [("W", Numeric); ("OFF_RATING", Numeric)]
    (indexed [[Num 41; Num 110]; [Num 41; Num 115]; [Num 41; NA]; [NA; Num 120]]).

(** The interpolation step of [quantile] on a sorted list [v] at the
    fractional position [h]. *)
Definition interp (v : list Q) (h : Q) : Q :=
  let lo := Z.to_nat (Qfloor h) in
  let frac := h - inject_Z (Z.of_nat lo) in
  let a := nth lo v 0 in
  if (lo + 1 <? List.length v)%nat then a + frac * (nth (lo + 1)%nat v 0 - a) else a.

(** Every row of [t'] carries the index label of a row of [t]. *)
Definition labels_from (t t' : table) : Prop :=
  forall r, In r (rows t') -> exists r0, In (fst r, r0) (rows t).

(** The cells of [t] are missing only at the positions of the columns named in [ns]. *)
Definition na_only_in (ns : list string) (t : table) : Prop :=
  forall r, In r (rows t) -> forall i, nth_error (snd r) i = Some NA ->
    exists n, In n ns /\ col_index n (columns t) = Some i.

(** Column [n] of [t] sits at position [i] with dtype [d]. *)
Definition col_at (n : string) (d : dtype) (i : nat) (t : table) : Prop :=
  col_index n (columns t) = Some i /\ nth_error (columns t) i = Some (n, d).

(** The row labelled [k] of [t] has a cell [x] at position [i]. *)
Definition row_at (k i : nat) (x : cell) (t : table) : Prop :=
  exists r, In (k, r) (rows t) /\ (i < List.length r)%nat /\ cell_at i r = x.

(** Every row of [t] holds a text at position [i]. *)
Definition text_at (i : nat) (t : table) : Prop :=
  forall r, In r (rows t) -> exists s, cell_at i (snd r) = Str s.

(** Every row of [t] holds a stripped, title-cased text at position [i]. *)
Definition titled_at (i : nat) (t : table) : Prop :=
  forall r, In r (rows t) -> exists s, cell_at i (snd r) = Str (py_title (py_strip s)).



(** ** Lemmas on the row and column helpers *)

Lemma update_at_length (j : nat) (f : cell -> cell) (r : row) :
  List.length (update_at j f r) = List.length r.
Proof.
  revert j; induction r as [|c cs IH]; intros [|j]; simpl; auto.
Qed.

Lemma cell_at_update_same (i : nat) (f : cell -> cell) (r : row) :
  (i < List.length r)%nat -> cell_at i (update_at i f r) = f (cell_at i r).
Proof.
  revert i; induction r as [|c cs IH]; intros [|i] Hi; simpl in *; try lia; auto.
  apply IH; lia.
Qed.

Lemma cell_at_update_other (i j : nat) (f : cell -> cell) (r : row) :
  i <> j -> cell_at i (update_at j f r) = cell_at i r.
Proof.
  revert i j; induction r as [|c cs IH]; intros [|i] [|j] Hij; simpl; auto; try congruence.
  unfold cell_at in *; simpl. apply IH; congruence.
Qed.

Lemma update_all_length g js r :
  List.length (update_all g js r) = List.length r.
Proof.
  unfold update_all; revert r; induction js as [|j js IH]; intro r; simpl; auto.
  rewrite IH; apply update_at_length.
Qed.

Lemma cell_at_update_all_notin g js r i :
  ~ In i js -> cell_at i (update_all g js r) = cell_at i r.
Proof.
  unfold update_all; revert r; induction js as [|j js IH]; intros r Hn; simpl; auto.
  rewrite IH by (intro; apply Hn; right; auto).
  apply cell_at_update_other; intro; subst; apply Hn; left; auto.
Qed.

Lemma cell_at_update_all_in g js r i :
  NoDup js -> In i js -> (i < List.length r)%nat ->
  cell_at i (update_all g js r) = g i (cell_at i r).
Proof.
  unfold update_all; revert r; induction js as [|j js IH]; intros r Hnd Hin Hl;
    [destruct Hin|].
  inversion Hnd as [|? ? Hj Hnd']; subst; simpl.
  destruct (Nat.eq_dec i j) as [->|Hij].
  - pose proof (cell_at_update_all_notin g js (update_at j (g j) r) j Hj) as E.
    unfold update_all in E; rewrite E. apply cell_at_update_same; auto.
  - destruct Hin as [Hin|Hin]; [congruence|].
    rewrite IH by (auto; rewrite update_at_length; auto).
    rewrite cell_at_update_other; auto.
Qed.

Lemma map_rows_compose f h t :
  map_rows f (map_rows h t) = map_rows (fun r => f (h r)) t.
Proof.
  unfold map_rows; simpl; f_equal. rewrite map_map; reflexivity.
Qed.

Lemma map_rows_id t : map_rows (fun r => r) t = t.
Proof.
  destruct t as [cs rs]; unfold map_rows; simpl; f_equal.
  induction rs as [|[k r] rs IH]; simpl; congruence.
Qed.

Lemma fold_map_rows_update (g : nat -> cell -> cell) js t :
  fold_left (fun acc j => map_rows (update_at j (g j)) acc) js t =
  map_rows (update_all g js) t.
Proof.
  assert (G : forall h, fold_left (fun acc j => map_rows (update_at j (g j)) acc) js (map_rows h t)
                = map_rows (fun r => update_all g js (h r)) t).
  { unfold update_all; induction js as [|j js IH]; intro h; simpl; auto.
    rewrite map_rows_compose. apply (IH (fun r => update_at j (g j) (h r))). }
  rewrite <- (map_rows_id t) at 1. rewrite G. reflexivity.
Qed.

Lemma indices_from_spec k p cols i :
  In i (indices_from k p cols) <->
  (k <= i)%nat /\ exists n d, nth_error cols (i - k) = Some (n, d) /\ p d = true.
Proof.
  revert k; induction cols as [|[n d] cs IH]; intro k; simpl.
  - split; [intros []|]. intros [_ [? [? [H _]]]]. destruct (i - k)%nat; discriminate.
  - destruct (p d) eqn:Hp; [split|split].
    + intros [<-|H]. { split; [lia|]. rewrite Nat.sub_diag. simpl; eauto. }
      apply IH in H as [Hk [n' [d' [Hn Hd]]]]. split; [lia|].
      replace (i - k)%nat with (S (i - S k)) by lia. simpl; eauto.
    + intros [Hk [n' [d' [Hn Hd]]]].
      destruct (Nat.eq_dec i k) as [->|Hik]; [left; auto|right].
      apply IH. split; [lia|].
      replace (i - k)%nat with (S (i - S k)) in Hn by lia. simpl in Hn; eauto.
    + intro H; apply IH in H as [Hk [n' [d' [Hn Hd]]]]. split; [lia|].
      replace (i - k)%nat with (S (i - S k)) by lia. simpl; eauto.
    + intros [Hk [n' [d' [Hn Hd]]]]. apply IH.
      destruct (Nat.eq_dec i k) as [->|Hik].
      { rewrite Nat.sub_diag in Hn; simpl in Hn. inversion Hn; subst; congruence. }
      split; [lia|].
      replace (i - k)%nat with (S (i - S k)) in Hn by lia. simpl in Hn; eauto.
Qed.

Lemma indices_from_NoDup k p cols : NoDup (indices_from k p cols).
Proof.
  revert k; induction cols as [|[n d] cs IH]; intro k; simpl; [constructor|].
  destruct (p d); auto. constructor; auto.
  intro H; apply indices_from_spec in H; lia.
Qed.

Lemma numeric_col_in t i n :
  nth_error (columns t) i = Some (n, Numeric) -> In i (numeric_cols t).
Proof.
  intro H; apply indices_from_spec; split; [lia|].
  rewrite Nat.sub_0_r; eauto.
Qed.

Lemma numeric_col_not_categorical t i n :
  nth_error (columns t) i = Some (n, Numeric) -> ~ In i (categorical_cols t).
Proof.
  intros H Hin; apply indices_from_spec in Hin as [_ [n' [d [Hn Hd]]]].
  rewrite Nat.sub_0_r, H in Hn; inversion Hn; subst; discriminate.
Qed.

Lemma drop_missing_names_sub t t1 :
  drop_missing_names t = Ok t1 ->
  columns t1 = columns t /\ forall x, In x (rows t1) -> In x (rows t).
Proof.
  unfold drop_missing_names.
  destruct (col_index "first_name" (columns t)), (col_index "last_name" (columns t));
    try discriminate.
  intro E; inversion E; subst; simpl; split; auto.
  intros x Hx; apply filter_In in Hx; tauto.
Qed.

(** Every cell of a numeric column after the missing-value step is its
    cell after the name drop, filled with the median of the column as it
    stands after the name drop. *)
Lemma handle_missing_cell t t1 t' i n :
  well_formed t -> nth_error (columns t) i = Some (n, Numeric) ->
  drop_missing_names t = Ok t1 -> handle_missing t = Ok t' ->
  forall k r, In (k, r) (rows t') ->
    exists r0, In (k, r0) (rows t1) /\
      cell_at i r = fill_median (median (column_values i (rows t1))) (cell_at i r0).
Proof.
  intros Hwf Hcol Hd Hh k r Hin.
  destruct (drop_missing_names_sub t t1 Hd) as [Hc Hsub].
  unfold handle_missing in Hh; rewrite Hd in Hh; simpl in Hh; inversion Hh; subst t'; clear Hh.
  unfold fill_categorical_unknown, fill_numeric_medians in Hin.
  rewrite !fold_map_rows_update in Hin.
  unfold map_rows in Hin; simpl in Hin. rewrite map_map in Hin; simpl in Hin.
  apply in_map_iff in Hin as [[k0 r0] [E Hin0]]; simpl in E; inversion E; subst k0 r; clear E.
  exists r0; split; auto.
  rewrite <- Hc in Hcol.
  rewrite cell_at_update_all_notin.
  2: { unfold categorical_cols; simpl.
       apply (numeric_col_not_categorical (mk_table (columns t1) []) i n Hcol). }
  apply cell_at_update_all_in.
  - apply indices_from_NoDup.
  - apply (numeric_col_in t1 i n Hcol).
  - destruct (Hwf k r0 (Hsub _ Hin0)) as [Hl _]. rewrite Hl, <- Hc.
    apply nth_error_Some; congruence.
Qed.

Lemma column_values_nil_cells i rs :
  column_values i rs = [] -> forall x, In x rs -> forall q, cell_at i (snd x) <> Num q.
Proof.
  unfold column_values; intros H x Hx q Hq.
  assert (In q (flat_map (fun r => match cell_at i (snd r) with Num q => [q] | _ => [] end) rs))
    as Hin by (apply in_flat_map; exists x; rewrite Hq; simpl; auto).
  rewrite H in Hin; destruct Hin.
Qed.

(** ** Claim C2 *)

(** C2 (amended): with [fill-median] on a numeric column X, the fill value
    is the median of X's non-missing values among the rows that survive the
    drop of rows lacking [first_name] or [last_name] (not among the rows of
    the original input); when that median exists, every missing cell of X
    becomes it, the other cells are kept, and X has no missing cell. *)
Theorem handle_missing_fill_median (t t1 t' : table) (i : nat) (n : string) (m : Q) :
  well_formed t -> nth_error (columns t) i = Some (n, Numeric) ->
  drop_missing_names t = Ok t1 -> median (column_values i (rows t1)) = Some m ->
  handle_missing t = Ok t' ->
  forall k r, In (k, r) (rows t') ->
    exists r0, In (k, r0) (rows t1) /\
      (cell_at i r0 = NA -> cell_at i r = Num m) /\
      (cell_at i r0 <> NA -> cell_at i r = cell_at i r0) /\
      cell_at i r <> NA.
Proof.
  intros Hwf Hcol Hd Hm Hh k r Hin.
  destruct (handle_missing_cell t t1 t' i n Hwf Hcol Hd Hh k r Hin) as [r0 [Hin0 E]].
  rewrite Hm in E; unfold fill_median, fill_cell in E.
  exists r0; split; auto.
  destruct (cell_at i r0) eqn:C; simpl in E; rewrite E; repeat split; congruence.
Qed.

(** C2: the claim asks for the median of the original input's values. *)
Lemma handle_missing_fill_median_cex :
  match median (column_values 2 (rows median_table)), handle_missing median_table with
  | Some m, Ok t' =>
      In (2%nat, [Str "c"; Str "c"; Num 10]) (rows t') /\ ~ (m == 10)
  | _, _ => False
  end.
Proof.
  vm_compute. split; [right; left; reflexivity | discriminate].
Qed.

Lemma handle_missing_fill_median_witness :
  exists t1 t', drop_missing_names median_table = Ok t1 /\ handle_missing median_table = Ok t' /\
  forall k r, In (k, r) (rows t') ->
    exists r0, In (k, r0) (rows t1) /\
      (cell_at 2 r0 = NA -> cell_at 2 r = Num 10) /\
      (cell_at 2 r0 <> NA -> cell_at 2 r = cell_at 2 r0) /\
      cell_at 2 r <> NA.
Proof.
  eexists; eexists; split; [reflexivity|split; [reflexivity|]].
  apply (handle_missing_fill_median median_table _ _ 2 "weight" 10).
  - intros k r H; vm_compute in H.
    repeat (destruct H as [H|H]; [inversion H; subst; split;
      [reflexivity | intros [|[|[|[|]]]] n0 Hn s; vm_compute in Hn |- *; congruence]|]); destruct H.
  - reflexivity.
  - reflexivity.
  - vm_compute; reflexivity.
  - reflexivity.
Defined.

(** ** Claim C5 *)

(** C5 (amended): when a numeric column has no non-missing value among the
    rows that survive the name drop, its median is NaN; the missing-value
    step raises no error and returns the column with every cell still
    missing. *)
Theorem handle_missing_all_missing (t t1 : table) (i : nat) (n : string) :
  well_formed t -> nth_error (columns t) i = Some (n, Numeric) ->
  drop_missing_names t = Ok t1 -> column_values i (rows t1) = [] ->
  exists t', handle_missing t = Ok t' /\
    forall k r, In (k, r) (rows t') -> cell_at i r = NA.
Proof.
  intros Hwf Hcol Hd Hnil.
  destruct (drop_missing_names_sub t t1 Hd) as [Hc Hsub].
  exists (fill_categorical_unknown (fill_numeric_medians t1)).
  split; [unfold handle_missing; rewrite Hd; reflexivity|].
  intros k r Hin.
  destruct (handle_missing_cell t t1 _ i n Hwf Hcol Hd
              ltac:(unfold handle_missing; rewrite Hd; reflexivity) k r Hin) as [r0 [Hin0 E]].
  rewrite Hnil in E; simpl in E; rewrite E.
  destruct (Hwf k r0 (Hsub _ Hin0)) as [_ Hty].
  pose proof (column_values_nil_cells i (rows t1) Hnil (k, r0) Hin0) as Hq; simpl in Hq.
  destruct (cell_at i r0) eqn:C; auto.
  - exfalso; apply (Hq q); reflexivity.
  - exfalso; apply (Hty i n Hcol s); auto.
Qed.

Lemma handle_missing_all_missing_witness :
  exists t1, drop_missing_names all_missing_table = Ok t1 /\ column_values 2 (rows t1) = [] /\
  exists t', handle_missing all_missing_table = Ok t' /\
    forall k r, In (k, r) (rows t') -> cell_at 2 r = NA.
Proof.
  eexists; split; [reflexivity|split; [reflexivity|]].
  eapply (handle_missing_all_missing all_missing_table _ 2 "weight").
  - intros k r H; vm_compute in H.
    repeat (destruct H as [H|H]; [inversion H; subst; split;
      [reflexivity | intros [|[|[|[|]]]] n0 Hn s; vm_compute in Hn |- *; congruence]|]); destruct H.
  - reflexivity.
  - reflexivity.
  - reflexivity.
Defined.

(** C5: no data-quality error is reported; the step succeeds and its output
    column is still missing. *)
Lemma handle_missing_all_missing_cex :
  match handle_missing all_missing_table with
  | Ok t' => In (0%nat, [Str "a"; Str "a"; NA]) (rows t')
  | Err _ => False
  end.
Proof. vm_compute. left; reflexivity. Qed.

(** ** Claim C1 *)

(** C1 (amended): the loop over the numeric columns computes the bounds of
    each column from the rows that survived the filters of the columns
    before it; a row is kept iff, for every column in loop order, its value
    lies within the bounds computed at that column's turn. *)
Theorem outlier_loop_spec (cols : list nat) (rs : list (nat * row)) (r : nat * row) :
  In r (outlier_loop cols rs) <->
  In r rs /\
  forall k, (k < List.length cols)%nat ->
    in_bounds (iqr_bounds (column_values (nth k cols O) (outlier_loop (firstn k cols) rs)))
              (cell_at (nth k cols O) (snd r)) = true.
Proof.
  revert rs; induction cols as [|i cs IH]; intro rs; simpl.
  - split; [intro H; split; [auto | intros; lia] | tauto].
  - rewrite IH. unfold outlier_step; rewrite filter_In. split.
    + intros [[Hr Hb] Hk]. split; auto.
      intros [|k] Hlt; simpl; auto. apply Hk; lia.
    + intros [Hr Hk]. split; [split; auto; apply (Hk O); lia|].
      intros k Hlt. apply (Hk (S k)); lia.
Qed.

(** C1: on [cascade_table] the row labelled 3 lies within the entry-time
    bounds of both numeric columns, yet [clean_ACTIVE_PLAYERS] removes it,
    because the bounds of column [b] are recomputed after column [a]'s
    filter. *)
Lemma outlier_loop_entry_bounds_cex :
  In (3%nat, [Str "s"; Str "s"; Num 0; Num 10]) (rows cascade_table) /\
  In (3%nat, [Str "s"; Str "s"; Num 0; Num 10])
     (outlier_filter_at_entry (numeric_cols cascade_table) (rows cascade_table)) /\
  match clean_ACTIVE_PLAYERS cascade_table with
  | Ok (t, _) => map fst (rows t) = [0; 1; 2]%nat
  | Err _ => False
  end.
Proof.
  vm_compute. split; [right; right; right; left; reflexivity|].
  split; [right; right; right; left; reflexivity|reflexivity].
Qed.

(** ** Row equality is an equivalence *)

Lemma cell_eqb_refl c : cell_eqb c c = true.
Proof.
  destruct c; simpl; auto. apply Qeq_bool_iff; reflexivity. apply String.eqb_refl.
Qed.

Lemma cell_eqb_sym a b : cell_eqb a b = cell_eqb b a.
Proof.
  destruct a, b; simpl; auto.
  - destruct (Qeq_bool q q0) eqn:E1, (Qeq_bool q0 q) eqn:E2; auto.
    + apply Qeq_bool_iff in E1. rewrite <- E2. symmetry. apply Qeq_bool_iff. symmetry; auto.
    + apply Qeq_bool_iff in E2. rewrite <- E1. apply Qeq_bool_iff. symmetry; auto.
  - apply String.eqb_sym.
Qed.

Lemma cell_eqb_trans a b c : cell_eqb a b = true -> cell_eqb b c = true -> cell_eqb a c = true.
Proof.
  destruct a, b, c; simpl; try discriminate; auto.
  - rewrite !Qeq_bool_iff. intros; eapply Qeq_trans; eauto.
  - rewrite !String.eqb_eq. congruence.
Qed.

Lemma row_eqb_refl r : row_eqb r r = true.
Proof. induction r; simpl; auto. rewrite cell_eqb_refl; auto. Qed.

Lemma row_eqb_sym r s : row_eqb r s = row_eqb s r.
Proof.
  revert s; induction r as [|a r IH]; intros [|b s]; simpl; auto.
  rewrite cell_eqb_sym, IH; auto.
Qed.

Lemma row_eqb_trans r s u : row_eqb r s = true -> row_eqb s u = true -> row_eqb r u = true.
Proof.
  revert s u; induction r as [|a r IH]; intros [|b s] [|c u]; simpl; try discriminate; auto.
  rewrite !andb_true_iff; intros [H1 H2] [H3 H4]; split; eauto using cell_eqb_trans.
Qed.

(** ** Lemmas on [dedup_aux] *)

Lemma existsb_row_eqb_trans z x seen :
  row_eqb z x = true -> existsb (row_eqb x) seen = true -> existsb (row_eqb z) seen = true.
Proof.
  intros H; rewrite !existsb_exists; intros [y [Hy Hxy]]; exists y; split; auto.
  eapply row_eqb_trans; eauto.
Qed.

Lemma dedup_aux_seen_ext s1 s2 l :
  (forall z, existsb (row_eqb z) s1 = existsb (row_eqb z) s2) ->
  dedup_aux s1 l = dedup_aux s2 l.
Proof.
  revert s1 s2; induction l as [|x l IH]; intros s1 s2 Hs; simpl; auto.
  rewrite Hs. destruct (existsb (row_eqb (snd x)) s2); auto.
  f_equal; apply IH. intro z; simpl; rewrite Hs; reflexivity.
Qed.

Lemma dedup_aux_positions seen pre l :
  (forall z, existsb (row_eqb z) seen = existsb (fun y => row_eqb z (snd y)) pre) ->
  dedup_aux seen l =
  map snd (filter (first_occurrence (pre ++ l)%list) (combine (seq (List.length pre) (List.length l)) l)).
Proof.
  revert seen pre; induction l as [|x l IH]; intros seen pre Hs; simpl; auto.
  unfold first_occurrence at 1; simpl.
  rewrite firstn_app, firstn_all, Nat.sub_diag, app_nil_r. rewrite <- Hs.
  replace (pre ++ x :: l)%list with ((pre ++ [x]) ++ l)%list by (rewrite <- app_assoc; reflexivity).
  replace (S (List.length pre)) with (List.length (pre ++ [x])%list)
    by (rewrite length_app; simpl; lia).
  destruct (existsb (row_eqb (snd x)) seen) eqn:Ex; simpl.
  - apply IH. intro z. rewrite existsb_app; simpl. rewrite <- Hs, orb_false_r.
    destruct (row_eqb z (snd x)) eqn:Ezx; [|rewrite orb_false_r; reflexivity].
    rewrite orb_true_r. eapply existsb_row_eqb_trans; eauto.
  - f_equal. apply IH. intro z. rewrite existsb_app; simpl. rewrite <- Hs, orb_false_r.
    apply orb_comm.
Qed.

Lemma dedup_aux_class seen l z :
  filter (fun x => row_eqb z (snd x)) (dedup_aux seen l) =
  if existsb (row_eqb z) seen then []
  else firstn 1 (filter (fun x => row_eqb z (snd x)) l).
Proof.
  revert seen; induction l as [|x l IH]; intro seen; simpl.
  - destruct (existsb (row_eqb z) seen); reflexivity.
  - destruct (existsb (row_eqb (snd x)) seen) eqn:Ex; simpl.
    + rewrite IH. destruct (existsb (row_eqb z) seen) eqn:Ez; auto.
      destruct (row_eqb z (snd x)) eqn:Ezx; auto.
      rewrite (existsb_row_eqb_trans z (snd x) seen Ezx Ex) in Ez; discriminate.
    + rewrite IH; simpl.
      destruct (row_eqb z (snd x)) eqn:Ezx; simpl.
      * destruct (existsb (row_eqb z) seen) eqn:Ez; auto.
        rewrite row_eqb_sym in Ezx.
        rewrite (existsb_row_eqb_trans (snd x) z seen Ezx Ez) in Ex; discriminate.
      * reflexivity.
Qed.

(** ** Claim C8 *)

(** C8: [drop_duplicates] keeps exactly the rows at first-occurrence
    positions, in input order; and for every input row [r], the kept rows
    equal to [r] are exactly one, the first row of the input equal to [r]
    (with its index label). *)
Theorem drop_duplicates_first_occurrence (t : table) :
  rows (drop_duplicates t) =
    map snd (filter (first_occurrence (rows t))
                    (combine (seq 0 (List.length (rows t))) (rows t))) /\
  forall r, In r (rows t) ->
    filter (fun x => row_eqb (snd r) (snd x)) (rows (drop_duplicates t)) =
      firstn 1 (filter (fun x => row_eqb (snd r) (snd x)) (rows t)) /\
    List.length (filter (fun x => row_eqb (snd r) (snd x)) (rows (drop_duplicates t))) = 1%nat.
Proof.
  split.
  - unfold drop_duplicates; simpl. apply (dedup_aux_positions [] []). reflexivity.
  - intros r Hr. unfold drop_duplicates; simpl.
    rewrite (dedup_aux_class [] (rows t) (snd r)); simpl.
    split; auto.
    assert (In r (filter (fun x => row_eqb (snd r) (snd x)) (rows t))) as Hf
      by (apply filter_In; split; auto; apply row_eqb_refl).
    destruct (filter (fun x => row_eqb (snd r) (snd x)) (rows t)); [destruct Hf|reflexivity].
Qed.

Example drop_duplicates_example :
  rows (drop_duplicates
          (mk_table [("a", Numeric)]
             (indexed [[Num 1]; [Num 2]; [Num (2 # 2)]; [Num 1]; [Num 3]; [NA]; [NA]])))
  = [(0, [Num 1]); (1, [Num 2]); (4, [Num 3]); (5, [NA])]%nat.
Proof. reflexivity. Qed.

(** ** Claims C4 and C7 *)

(** C4: an input with no row (a header-only file, whose columns [read_csv]
    types as [object]) makes [clean_ACTIVE_PLAYERS] raise
    [ZeroDivisionError] in the printed outlier percentage. *)
Theorem clean_ACTIVE_PLAYERS_empty_raises :
  clean_ACTIVE_PLAYERS empty_players = Err ZeroDivisionError.
Proof. reflexivity. Qed.

(** C7: with [weight = [200, 205, 210, 215, 600]] the bounds are
    [[190, 230]], which exclude 600; exactly the row of 600 is removed and
    the report gives 1 row, 20%. *)
Theorem clean_ACTIVE_PLAYERS_weights :
  (match iqr_bounds (column_values 2 (rows weights_table)) with
   | Some (lo, hi) => lo == 190 /\ hi == 230 /\ hi < 600
   | None => False
   end) /\
  match clean_ACTIVE_PLAYERS weights_table with
  | Ok (t, rep) =>
      map fst (rows t) = [0; 1; 2; 3]%nat /\
      map (fun r => cell_at 2 (snd r)) (rows t) = [Num 200; Num 205; Num 210; Num 215] /\
      outliers_removed rep = 1%nat /\ outliers_pct rep == 20
  | Err _ => False
  end.
Proof.
  vm_compute. repeat split; reflexivity.
Qed.

(** ** Character-level facts of the case mappings *)







(** ** [str.strip] *)








(** ** [str.upper] and [str.title] keep the stripped shape *)






(** ** Claim C9 *)




















(** ** Claims C3 and C6 *)

(** C3: whatever the input, the file left by [clean_advanced_team_stats]
    is the second block's plain column selection of the raw input, which
    overwrites the cleaned table of the first block.  On [raw_teams] the
    final file keeps the row with GP = 0, the row with a missing rating
    and the unstripped name, while the first block had removed them. *)
Theorem clean_advanced_team_stats_overwrites :
  (forall df out,
     output_csv (fst (clean_advanced_team_stats (mk_fs (Some df) out))) =
       Some (select_columns columns_to_keep df)) /\
  map snd (rows (advanced_cleaned raw_teams)) =
    [[Str "Nuggets"; Num 82; Num 57; Num 25; Num 5]] /\
  match output_csv (fst (clean_advanced_team_stats (mk_fs (Some raw_teams) None))) with
  | Some t =>
      In (1%nat, [Str "Ghosts"; Num 0; Num 0; Num 0; Num 0]) (rows t) /\
      In (2%nat, [Str "Bulls"; Num 82; Num 39; Num 43; NA]) (rows t) /\
      In (0%nat, [Str " Nuggets "; Num 82; Num 57; Num 25; Num 5]) (rows t)
  | None => False
  end.
Proof.
  split; [intros df out; reflexivity|].
  split; [vm_compute; reflexivity|].
  vm_compute. split; [right; left|split; [right; right; left|left]]; reflexivity.
Qed.

(** C6: the W + L = GP rule only counts: the first block writes the table
    of the earlier steps unchanged and reports the number of its rows that
    violate the rule; on the scenario both rows are kept, unchanged, in the
    final file, and exactly one violation (the second row) is counted. *)
Theorem wl_rule_warn_only :
  (forall df out,
     output_csv (fst (advanced_block1 (mk_fs (Some df) out))) = Some (advanced_cleaned df) /\
     (snd (advanced_block1 (mk_fs (Some df) out)) = None \/
      snd (advanced_block1 (mk_fs (Some df) out)) =
        Some (List.length (filter (fun r => negb (wl_valid (advanced_cleaned df) (snd r)))
                                  (rows (advanced_cleaned df)))))) /\
  advanced_cleaned wl_table = wl_table /\
  filter (fun r => negb (wl_valid wl_table (snd r))) (rows wl_table) =
    [(1%nat, [Num 10; Num 7; Num 4])] /\
  clean_advanced_team_stats (mk_fs (Some wl_table) None) =
    (mk_fs (Some wl_table) (Some wl_table), Some 1%nat).
Proof.
  split.
  - intros df out; simpl; split; auto.
    unfold wl_invalid_count.
    destruct (has_col "W" (advanced_cleaned df) && has_col "L" (advanced_cleaned df)
              && has_col "GP" (advanced_cleaned df)); auto.
  - vm_compute. repeat split; reflexivity.
Qed.

(** ** Lemmas on sums, means and squared deviations *)

Lemma sum_Q_nonneg (l : list Q) : (forall x, In x l -> 0 <= x) -> 0 <= sum_Q l.
Proof.
  induction l as [|a l IH]; simpl; intro H; [apply Qle_refl|].
  assert (0 <= a) by (apply H; left; auto).
  assert (0 <= sum_Q l) by (apply IH; intros; apply H; right; auto).
  lra.
Qed.

Lemma sum_Q_nonneg_zero (l : list Q) :
  (forall x, In x l -> 0 <= x) -> sum_Q l == 0 -> forall x, In x l -> x == 0.
Proof.
  induction l as [|a l IH]; simpl; intros Hnn Hs x Hx; [destruct Hx|].
  assert (0 <= sum_Q l) as Hl by (apply sum_Q_nonneg; intros y Hy; apply Hnn; right; auto).
  assert (0 <= a) by (apply Hnn; left; auto).
  destruct Hx as [<-|Hx]; [lra|].
  apply IH; [intros y Hy; apply Hnn; right; auto | lra | auto].
Qed.

Lemma sq_nonneg (a : Q) : 0 <= a * a.
Proof. nra. Qed.

Lemma ssq_zero_const (l : list Q) :
  ssq l == 0 -> forall x, In x l -> x == mean l.
Proof.
  unfold ssq; intros Hs x Hx.
  assert ((x - mean l) * (x - mean l) == 0) as H0.
  { apply (sum_Q_nonneg_zero (map (fun y => (y - mean l) * (y - mean l)) l)); [| exact Hs | apply in_map_iff; exists x; auto].
    intros y Hy; apply in_map_iff in Hy as [z [<- _]].
    apply sq_nonneg. }
  apply Qmult_integral in H0 as [H0|H0]; lra.
Qed.

Lemma sum_Q_const (l : list Q) (c : Q) :
  (forall x, In x l -> x == c) -> sum_Q l == inject_Z (Z.of_nat (List.length l)) * c.
Proof.
  induction l as [|a l IH]; intro H; [reflexivity|].
  change (sum_Q (a :: l)) with (a + sum_Q l).
  change (List.length (a :: l)) with (S (List.length l)).
  rewrite IH by (intros; apply H; right; auto).
  rewrite Nat2Z.inj_succ, <- Z.add_1_r, inject_Z_plus.
  assert (a == c) as Hac by (apply H; left; auto).
  rewrite Hac. setoid_replace (inject_Z 1) with 1 by reflexivity. ring.
Qed.

Lemma mean_const (l : list Q) (c : Q) :
  l <> [] -> (forall x, In x l -> x == c) -> mean l == c.
Proof.
  intros Hne H; unfold mean. rewrite (sum_Q_const l c H).
  assert (~ inject_Z (Z.of_nat (List.length l)) == 0) as Hn.
  { destruct l as [|a l]; [congruence|]. simpl.
    rewrite Zpos_P_of_succ_nat. unfold Qeq; simpl. lia. }
  rewrite Qmult_comm. apply Qdiv_mult_l; auto.
Qed.

Lemma sum_Q_map_zero {A} (f : A -> Q) (l : list A) :
  (forall x, In x l -> f x == 0) -> sum_Q (map f l) == 0.
Proof.
  induction l as [|a l IH]; intro H; simpl; [reflexivity|].
  rewrite IH by (intros; apply H; right; auto).
  rewrite (H a (or_introl eq_refl)). reflexivity.
Qed.

Lemma ssq_const (l : list Q) (c : Q) :
  (forall x, In x l -> x == c) -> ssq l == 0.
Proof.
  intro H; destruct l as [|a l']; [reflexivity|].
  assert (mean (a :: l') == c) as Hm by (apply mean_const; [congruence|auto]).
  unfold ssq; apply sum_Q_map_zero; intros x Hx.
  rewrite (H x Hx), Hm. ring.
Qed.

Lemma pair_values_in (t : table) (i j : nat) (p : Q * Q) :
  In p (pair_values t i j) ->
  In (fst p) (column_values i (rows t)) /\ In (snd p) (column_values j (rows t)).
Proof.
  unfold pair_values, column_values; rewrite in_flat_map; intros [r [Hr Hp]].
  destruct (cell_at i (snd r)) as [a| |] eqn:Ci; [|destruct Hp|destruct Hp].
  destruct (cell_at j (snd r)) as [b| |] eqn:Cj; [|destruct Hp|destruct Hp].
  destruct Hp as [<-|[]]; simpl.
  split; apply in_flat_map; exists r; split; auto; [rewrite Ci|rewrite Cj]; left; auto.
Qed.

Lemma corr_entry_at (t : table) (cols : list nat) (a b i j : nat) :
  nth_error cols a = Some i -> nth_error cols b = Some j ->
  corr_entry t cols a b = Some (pearson (pair_values t i j)).
Proof.
  intros Ha Hb; unfold corr_entry, corr_matrix.
  rewrite nth_error_map, Ha; simpl. rewrite nth_error_map, Hb; reflexivity.
Qed.

Lemma pearson_const_fst (ps : list (Q * Q)) (c : Q) :
  (forall p, In p ps -> fst p == c) -> pearson ps = None.
Proof.
  intro H; destruct ps as [|p ps']; [reflexivity|]. unfold pearson.
  assert (ssq (map fst (p :: ps')) == 0) as Hs.
  { apply (ssq_const _ c). intros x Hx; apply in_map_iff in Hx as [q [<- Hq]]; auto. }
  replace (Qeq_bool _ 0) with true; [reflexivity|].
  symmetry; apply Qeq_bool_iff. rewrite Hs; ring.
Qed.

Lemma pearson_const_snd (ps : list (Q * Q)) (c : Q) :
  (forall p, In p ps -> snd p == c) -> pearson ps = None.
Proof.
  intro H; destruct ps as [|p ps']; [reflexivity|]. unfold pearson.
  assert (ssq (map snd (p :: ps')) == 0) as Hs.
  { apply (ssq_const _ c). intros x Hx; apply in_map_iff in Hx as [q [<- Hq]]; auto. }
  replace (Qeq_bool _ 0) with true; [reflexivity|].
  symmetry; apply Qeq_bool_iff. rewrite Hs; ring.
Qed.

(** ** Claim C10 *)

(** C10: in [df[columns].corr()], a column with zero variance has the
    undefined entry NaN ([None], which is not [Some x] for any real [x], in
    particular not 0) against every column of the list, in its row and in
    its column; an entry whose two columns have positive variance over
    their common observations is the Pearson coefficient
    [covxy / sqrt(ssqdmx * ssqdmy)]. *)
Theorem corr_matrix_spec (t : table) (cols : list nat) :
  (forall a i, nth_error cols a = Some i -> zero_variance t i = true ->
     forall b j, nth_error cols b = Some j ->
       corr_entry t cols a b = Some None /\ corr_entry t cols b a = Some None /\
       (forall x : R, corr_entry t cols a b <> Some (Some x))) /\
  (forall a i b j, nth_error cols a = Some i -> nth_error cols b = Some j ->
     let ps := pair_values t i j in
     ~ (ssq (map fst ps) * ssq (map snd ps) == 0) ->
     corr_entry t cols a b =
       Some (Some (Q2R (sxy ps) / sqrt (Q2R (ssq (map fst ps) * ssq (map snd ps))))%R)).
Proof.
  split.
  - intros a i Ha Hz b j Hb.
    unfold zero_variance in Hz; apply Qeq_bool_iff in Hz.
    pose proof (ssq_zero_const _ Hz) as Hc.
    assert (E1 : corr_entry t cols a b = Some None).
    { rewrite (corr_entry_at t cols a b i j Ha Hb). f_equal.
      apply (pearson_const_fst _ (mean (column_values i (rows t)))).
      intros p Hp; apply Hc, (pair_values_in t i j p Hp). }
    split; [exact E1|split].
    + rewrite (corr_entry_at t cols b a j i Hb Ha). f_equal.
      apply (pearson_const_snd _ (mean (column_values i (rows t)))).
      intros p Hp; apply Hc, (pair_values_in t j i p Hp).
    + intros x; rewrite E1; discriminate.
  - intros a i b j Ha Hb ps Hd.
    rewrite (corr_entry_at t cols a b i j Ha Hb). f_equal.
    fold ps. unfold pearson.
    destruct ps as [|p ps'] eqn:Eps; [exfalso; apply Hd; reflexivity|].
    rewrite <- Eps in *.
    replace (Qeq_bool _ 0) with false; [reflexivity|].
    symmetry; apply not_true_iff_false; intro E; apply Qeq_bool_iff in E; auto.
Qed.

Example corr_constant_col :
  corr_entry constant_col_table [0; 1]%nat 0 1 = Some None /\
  corr_entry constant_col_table [0; 1]%nat 1 0 = Some None /\
  corr_entry constant_col_table [0; 1]%nat 0 0 = Some None.
Proof. repeat split; reflexivity. Qed.

(** ** Sorting and linear-interpolation quantiles *)

Lemma insert_sorted_perm x l : Permutation (x :: l) (insert_sorted x l).
Proof.
  induction l as [|y l IH]; simpl; auto.
  destruct (Qle_bool x y); auto.
  eapply perm_trans; [apply perm_swap|]. constructor; auto.
Qed.

Lemma sort_Q_perm l : Permutation l (sort_Q l).
Proof.
  induction l as [|x l IH]; simpl; auto.
  eapply perm_trans; [apply perm_skip, IH|apply insert_sorted_perm].
Qed.

Lemma insert_sorted_sorted x l :
  StronglySorted Qle l -> StronglySorted Qle (insert_sorted x l).
Proof.
  induction l as [|y l IH]; simpl; intro H.
  - repeat constructor.
  - apply StronglySorted_inv in H as [Hl Hy].
    destruct (Qle_bool x y) eqn:E.
    + apply Qle_bool_iff in E. constructor; [constructor; auto|].
      constructor; auto. eapply Forall_impl; [|exact Hy]. intros z Hz; eapply Qle_trans; eauto.
    + assert (y <= x) as Hyx.
      { apply Qnot_lt_le. intro Hlt. apply Qlt_le_weak, Qle_bool_iff in Hlt. congruence. }
      constructor; auto.
      apply (Permutation_Forall (insert_sorted_perm x l)). constructor; auto.
Qed.

Lemma sort_Q_sorted l : StronglySorted Qle (sort_Q l).
Proof. induction l; simpl; [constructor|]. apply insert_sorted_sorted; auto. Qed.

Lemma sorted_nth_le v i j :
  StronglySorted Qle v -> (i <= j)%nat -> (j < List.length v)%nat -> nth i v 0 <= nth j v 0.
Proof.
  revert i j; induction v as [|a v IH]; intros i j Hs Hij Hj; simpl in *; [lia|].
  apply StronglySorted_inv in Hs as [Hs Ha].
  destruct i as [|i], j as [|j]; try lia.
  - apply Qle_refl.
  - rewrite Forall_forall in Ha; apply Ha, nth_In; lia.
  - apply IH; auto; lia.
Qed.

Lemma floor_nat_eq h : 0 <= h -> inject_Z (Z.of_nat (Z.to_nat (Qfloor h))) == inject_Z (Qfloor h).
Proof.
  intro H. rewrite Z2Nat.id; [reflexivity|].
  pose proof (Qfloor_resp_le 0 h H) as F; simpl in F. exact F.
Qed.

(** [interp] at a position in [[lo, lo+1)] lies between the values at [lo]
    and [lo+1]. *)
Lemma interp_between v h (m : nat) :
  StronglySorted Qle v -> List.length v = S m -> 0 <= h -> h <= inject_Z (Z.of_nat m) ->
  let lo := Z.to_nat (Qfloor h) in
  (lo <= m)%nat /\ nth lo v 0 <= interp v h /\
  interp v h <= nth (Nat.min (lo + 1) m) v 0.
Proof.
  intros Hs Hl H0 Hm lo.
  assert (Hlo : (lo <= m)%nat).
  { unfold lo. pose proof (Qfloor_resp_le _ _ Hm) as F. rewrite Qfloor_Z in F. lia. }
  pose proof (floor_nat_eq h H0) as Efl. fold lo in Efl.
  pose proof (Qfloor_le h) as F1. pose proof (Qlt_floor h) as F2.
  rewrite inject_Z_plus in F2. rewrite <- Efl in F1, F2.
  split; auto. unfold interp; fold lo.
  destruct (lo + 1 <? List.length v)%nat eqn:Elt.
  - apply Nat.ltb_lt in Elt. rewrite Nat.min_l by lia.
    assert (nth lo v 0 <= nth (lo + 1) v 0) as Hab by (apply sorted_nth_le; auto; lia).
    set (a := nth lo v 0) in *; set (b := nth (lo + 1)%nat v 0) in *.
    set (f := h - inject_Z (Z.of_nat lo)).
    assert (0 <= f) by (unfold f; lra).
    assert (f <= 1) by (unfold f; change (inject_Z 1) with 1 in F2; lra).
    split; nra.
  - apply Nat.ltb_ge in Elt. rewrite Nat.min_r by lia.
    replace lo with m by lia. split; apply Qle_refl.
Qed.

Lemma interp_mono v h h' (m : nat) :
  StronglySorted Qle v -> List.length v = S m -> 0 <= h -> h <= h' ->
  h' <= inject_Z (Z.of_nat m) -> interp v h <= interp v h'.
Proof.
  intros Hs Hl H0 Hhh' Hm.
  assert (H0' : 0 <= h') by lra. assert (Hm' : h <= inject_Z (Z.of_nat m)) by lra.
  destruct (interp_between v h m Hs Hl H0 Hm') as [Hlo [A1 A2]].
  destruct (interp_between v h' m Hs Hl H0' Hm) as [Hlo' [B1 B2]].
  set (lo := Z.to_nat (Qfloor h)) in *; set (lo' := Z.to_nat (Qfloor h')) in *.
  assert (Hle : (lo <= lo')%nat).
  { unfold lo, lo'. apply Z2Nat.inj_le.
    - exact (Qfloor_resp_le 0 h H0).
    - exact (Qfloor_resp_le 0 h' H0').
    - apply Qfloor_resp_le; auto. }
  destruct (Nat.eq_dec lo lo') as [Eq|Neq].
  - unfold interp. fold lo lo'. rewrite <- Eq.
    destruct (lo + 1 <? List.length v)%nat eqn:Elt; [|apply Qle_refl].
    apply Nat.ltb_lt in Elt.
    assert (nth lo v 0 <= nth (lo + 1) v 0) by (apply sorted_nth_le; auto; lia).
    assert (h - inject_Z (Z.of_nat lo) <= h' - inject_Z (Z.of_nat lo)) by lra.
    set (a := nth lo v 0) in *; set (b := nth (lo + 1)%nat v 0) in *.
    set (f := h - inject_Z (Z.of_nat lo)) in *; set (f' := h' - inject_Z (Z.of_nat lo)) in *.
    nra.
  - rewrite Nat.min_l in A2 by lia.
    assert (nth (lo + 1) v 0 <= nth lo' v 0) by (apply sorted_nth_le; auto; lia).
    eapply Qle_trans; [exact A2|]. eapply Qle_trans; eauto.
Qed.

Lemma quantile_interp p xs :
  quantile p xs =
  match List.length (sort_Q xs) with
  | O => None
  | S m => Some (interp (sort_Q xs) (p * inject_Z (Z.of_nat m)))
  end.
Proof.
  unfold quantile, interp; cbv zeta. destruct (List.length (sort_Q xs)); [reflexivity|].
  destruct (_ <? _)%nat; reflexivity.
Qed.

Lemma sort_Q_length xs : List.length (sort_Q xs) = List.length xs.
Proof. symmetry; apply Permutation_length, sort_Q_perm. Qed.

Lemma sort_Q_in xs z : In z xs <-> In z (sort_Q xs).
Proof. split; apply Permutation_in; [|symmetry]; apply sort_Q_perm. Qed.

Lemma pos_le_m (p : Q) (m : nat) :
  0 <= p -> p <= 1 -> 0 <= p * inject_Z (Z.of_nat m) /\ p * inject_Z (Z.of_nat m) <= inject_Z (Z.of_nat m).
Proof.
  intros H0 H1. assert (0 <= inject_Z (Z.of_nat m)).
  { unfold Qle; simpl. lia. }
  split; nra.
Qed.

(** ** Extra properties of the quantile computation *)

(** [Series.quantile(p)] for [0 <= p <= 1] on a non-empty column lies
    between the column's minimum and maximum. *)
Theorem quantile_within_data (p : Q) (xs : list Q) :
  xs <> [] -> 0 <= p -> p <= 1 ->
  exists q lo hi, quantile p xs = Some q /\ In lo xs /\ In hi xs /\
    (forall z, In z xs -> lo <= z /\ z <= hi) /\ lo <= q /\ q <= hi.
Proof.
  intros Hne H0 H1. rewrite quantile_interp.
  pose proof (sort_Q_sorted xs) as Hs.
  destruct (List.length (sort_Q xs)) as [|m] eqn:Hl.
  { rewrite sort_Q_length in Hl. destruct xs; simpl in Hl; congruence. }
  destruct (pos_le_m p m H0 H1) as [P0 P1].
  destruct (interp_between _ _ m Hs Hl P0 P1) as [Hlo [A1 A2]].
  exists (interp (sort_Q xs) (p * inject_Z (Z.of_nat m))), (nth 0 (sort_Q xs) 0), (nth m (sort_Q xs) 0).
  split; [reflexivity|].
  split; [apply sort_Q_in, nth_In; lia|].
  split; [apply sort_Q_in, nth_In; lia|].
  split.
  - intros z Hz. apply sort_Q_in in Hz. apply In_nth with (d := 0) in Hz as [k [Hk <-]].
    split; apply sorted_nth_le; auto; lia.
  - split.
    + eapply Qle_trans; [|exact A1]. apply sorted_nth_le; auto; lia.
    + eapply Qle_trans; [exact A2|]. apply sorted_nth_le; auto; lia.
Qed.

Lemma quantile_within_data_witness :
  exists q lo hi, quantile (1 # 4) [215; 200; 600; 205; 210] = Some q /\
    In lo [215; 200; 600; 205; 210] /\ In hi [215; 200; 600; 205; 210] /\
    (forall z, In z [215; 200; 600; 205; 210] -> lo <= z /\ z <= hi) /\ lo <= q /\ q <= hi.
Proof.
  apply quantile_within_data; [discriminate | vm_compute; discriminate | vm_compute; discriminate].
Defined.

Lemma quantile_le (p p' : Q) (xs : list Q) (q q' : Q) :
  0 <= p -> p <= p' -> p' <= 1 -> quantile p xs = Some q -> quantile p' xs = Some q' -> q <= q'.
Proof.
  intros H0 Hpp H1 Hq Hq'. rewrite quantile_interp in Hq, Hq'.
  destruct (List.length (sort_Q xs)) as [|m] eqn:Hl; [discriminate|].
  inversion Hq; inversion Hq'; subst.
  assert (0 <= inject_Z (Z.of_nat m)) by (unfold Qle; simpl; lia).
  apply (interp_mono _ _ _ m (sort_Q_sorted xs) Hl); nra.
Qed.

(** [Series.quantile] is monotone in [p] on [[0, 1]]. *)
Theorem quantile_monotone (p p' : Q) (xs : list Q) (q q' : Q) :
  0 <= p -> p <= p' -> p' <= 1 -> quantile p xs = Some q -> quantile p' xs = Some q' -> q <= q'.
Proof. exact (quantile_le p p' xs q q'). Qed.

Lemma quantile_monotone_witness :
  quantile (1 # 4) [1; 5; 2; 8] = Some (7 # 4) /\ quantile (3 # 4) [1; 5; 2; 8] = Some (23 # 4) /\
  7 # 4 <= 23 # 4.
Proof.
  split; [reflexivity|split; [reflexivity|]].
  apply (quantile_monotone (1 # 4) (3 # 4) [1; 5; 2; 8]); try reflexivity; discriminate.
Defined.

(** The IQR filter of one column ([outlier_step], one iteration of the
    loop of [clean_ACTIVE_PLAYERS]): its bounds enclose [[Q1, Q3]], and
    every row whose value lies between the column's first and third
    quartile is kept. *)
Theorem outlier_step_keeps_interquartile (i : nat) (rs : list (nat * row)) (q1 q3 : Q) :
  quantile (1 # 4) (column_values i rs) = Some q1 ->
  quantile (3 # 4) (column_values i rs) = Some q3 ->
  (exists lo hi : Q, iqr_bounds (column_values i rs) = Some (lo, hi) /\
     lo <= q1 /\ q1 <= q3 /\ q3 <= hi) /\
  forall r, In r rs -> forall v, cell_at i (snd r) = Num v -> q1 <= v -> v <= q3 ->
    In r (outlier_step i rs).
Proof.
  intros H1 H3.
  assert (Hle : q1 <= q3).
  { apply (quantile_le (1 # 4) (3 # 4) (column_values i rs)); auto; discriminate. }
  assert (B : iqr_bounds (column_values i rs) =
              Some (q1 - (3 # 2) * (q3 - q1), q3 + (3 # 2) * (q3 - q1))).
  { unfold iqr_bounds. rewrite H1, H3. reflexivity. }
  split.
  - eexists _, _. split; [exact B|]. lra.
  - intros r Hr v Hv Hv1 Hv3. unfold outlier_step. apply filter_In. split; auto.
    rewrite B, Hv. simpl. apply andb_true_intro; split; apply Qle_bool_iff; lra.
Qed.

Lemma outlier_step_keeps_interquartile_witness :
  quantile (1 # 4) (column_values 0 (indexed [[Num 1]; [Num 5]; [Num 2]; [Num 8]])) = Some (7 # 4) /\
  quantile (3 # 4) (column_values 0 (indexed [[Num 1]; [Num 5]; [Num 2]; [Num 8]])) = Some (23 # 4) /\
  In (1%nat, [Num 5]) (outlier_step 0 (indexed [[Num 1]; [Num 5]; [Num 2]; [Num 8]])).
Proof.
  split; [reflexivity|split; [reflexivity|]].
  refine (proj2 (outlier_step_keeps_interquartile 0 (indexed [[Num 1]; [Num 5]; [Num 2]; [Num 8]])
            (7 # 4) (23 # 4) eq_refl eq_refl) (1%nat, [Num 5]) _ 5 eq_refl _ _).
  - simpl; right; left; reflexivity.
  - vm_compute; discriminate.
  - vm_compute; discriminate.
Defined.

(** ** Extra properties of [clean_ACTIVE_PLAYERS] *)

Lemma map_rows_columns f t : columns (map_rows f t) = columns t.
Proof. reflexivity. Qed.

Lemma fold_map_rows_columns (g : nat -> cell -> cell) js t :
  columns (fold_left (fun acc j => map_rows (update_at j (g j)) acc) js t) = columns t.
Proof. rewrite fold_map_rows_update. reflexivity. Qed.

Lemma handle_missing_columns t t' :
  handle_missing t = Ok t' -> columns t' = columns t.
Proof.
  unfold handle_missing. destruct (drop_missing_names t) as [t1|] eqn:Hd; simpl; [|discriminate].
  intro E; inversion E; subst t'; clear E.
  destruct (drop_missing_names_sub t t1 Hd) as [Hc _].
  unfold fill_categorical_unknown, fill_numeric_medians.
  rewrite (fold_map_rows_columns (fun _ => fill_cell (Str "Unknown"))).
  rewrite (fold_map_rows_columns (fun j => fill_median (median (column_values j (rows t1))))).
  exact Hc.
Qed.

Lemma outlier_loop_num cols rs r :
  In r (outlier_loop cols rs) ->
  In r rs /\ forall i, In i cols -> exists v, cell_at i (snd r) = Num v.
Proof.
  revert rs; induction cols as [|j cs IH]; intros rs H; simpl in H.
  - split; [exact H | intros i []].
  - destruct (IH _ H) as [H1 H2]. unfold outlier_step in H1. apply filter_In in H1 as [Hr Hb].
    split; auto. intros i [<-|Hi]; auto.
    destruct (iqr_bounds _) as [[lo hi]|], (cell_at j (snd r)) eqn:Hc; try discriminate; eauto.
Qed.

Lemma dedup_aux_sub seen rs r : In r (dedup_aux seen rs) -> In r rs.
Proof.
  revert seen; induction rs as [|x rs IH]; intros seen; simpl; auto.
  destruct (existsb (row_eqb (snd x)) seen); simpl.
  - intro H; right; eapply IH; eauto.
  - intros [<-|H]; [left; auto | right; eapply IH; eauto].
Qed.

Lemma clean_ACTIVE_PLAYERS_rows df t rep :
  clean_ACTIVE_PLAYERS df = Ok (t, rep) ->
  exists t3, handle_missing df = Ok t3 /\ columns t = columns df /\
    rows t = map (fun r => (fst r, update_all (fun _ => strip_title_cell) (categorical_cols t3) (snd r)))
               (outlier_loop (numeric_cols t3) (dedup_aux [] (rows t3))) /\
    outlier_report (List.length (dedup_aux [] (rows t3)))
      (List.length (outlier_loop (numeric_cols t3) (dedup_aux [] (rows t3)))) = Ok rep.
Proof.
  unfold clean_ACTIVE_PLAYERS. destruct (handle_missing df) as [t3|] eqn:Hh; simpl; [|discriminate].
  destruct (outlier_report _ _) as [rp|] eqn:Hr; simpl; [|discriminate].
  intro E; inversion E; subst; clear E.
  exists t3. split; auto.
  rewrite (fold_map_rows_update (fun _ => strip_title_cell)).
  split; [simpl; apply handle_missing_columns; auto|].
  split; [reflexivity | exact Hr].
Qed.

(** After [clean_ACTIVE_PLAYERS] succeeds, every row holds a number (no
    missing value) in every numeric column of the input: a row with a
    missing value there fails the IQR filter of that column. *)
Theorem clean_ACTIVE_PLAYERS_numeric_present (df t : table) (rep : report) (i : nat) (n : string) :
  clean_ACTIVE_PLAYERS df = Ok (t, rep) -> nth_error (columns df) i = Some (n, Numeric) ->
  forall r, In r (rows t) -> exists v, cell_at i (snd r) = Num v.
Proof.
  intros H Hcol r Hr.
  destruct (clean_ACTIVE_PLAYERS_rows df t rep H) as [t3 [Hh [_ [Hrows _]]]].
  pose proof (handle_missing_columns df t3 Hh) as Hc.
  rewrite <- Hc in Hcol.
  rewrite Hrows in Hr. apply in_map_iff in Hr as [r0 [<- Hr0]]. simpl.
  rewrite cell_at_update_all_notin by (eapply numeric_col_not_categorical; eauto).
  apply outlier_loop_num in Hr0 as [_ Hn]. apply Hn. eapply numeric_col_in; eauto.
Qed.

Lemma clean_ACTIVE_PLAYERS_numeric_present_witness :
  exists t rep r, clean_ACTIVE_PLAYERS weights_table = Ok (t, rep) /\
    nth_error (columns weights_table) 2 = Some ("weight", Numeric) /\
    In r (rows t) /\ exists v, cell_at 2 (snd r) = Num v.
Proof.
  destruct (clean_ACTIVE_PLAYERS weights_table) as [[t rep]|e] eqn:E.
  - pose proof E as E'; vm_compute in E'; injection E' as Et _.
    exists t, rep, (hd (O, []) (rows t)).
    assert (Hr : In (hd (O, []) (rows t)) (rows t)) by (rewrite <- Et; vm_compute; left; reflexivity).
    split; [reflexivity|split; [reflexivity|split; [exact Hr|]]].
    apply (clean_ACTIVE_PLAYERS_numeric_present weights_table t rep 2 "weight"); [exact E | reflexivity | exact Hr].
  - vm_compute in E; discriminate.
Defined.

Lemma handle_missing_length t t' :
  handle_missing t = Ok t' -> (List.length (rows t') <= List.length (rows t))%nat.
Proof.
  unfold handle_missing, drop_missing_names.
  destruct (col_index "first_name" (columns t)), (col_index "last_name" (columns t)); simpl;
    try discriminate.
  intro E; inversion E; subst t'; clear E.
  unfold fill_categorical_unknown, fill_numeric_medians.
  rewrite !fold_map_rows_update. simpl. rewrite !length_map.
  apply filter_length_le.
Qed.

Lemma dedup_aux_length seen rs : (List.length (dedup_aux seen rs) <= List.length rs)%nat.
Proof.
  revert seen; induction rs as [|x rs IH]; intro seen; simpl; auto.
  destruct (existsb (row_eqb (snd x)) seen); simpl; [specialize (IH seen); lia|].
  specialize (IH (snd x :: seen)); lia.
Qed.

Lemma outlier_loop_length cols rs : (List.length (outlier_loop cols rs) <= List.length rs)%nat.
Proof.
  revert rs; induction cols as [|j cs IH]; intro rs; simpl; auto.
  eapply Nat.le_trans; [apply IH|]. apply filter_length_le.
Qed.

(** The report of [clean_ACTIVE_PLAYERS]: the number of removed outliers
    plus the rows returned never exceed the input's rows, and the removed
    percentage lies in [[0, 100]]. *)
Theorem clean_ACTIVE_PLAYERS_report_bounds (df t : table) (rep : report) :
  clean_ACTIVE_PLAYERS df = Ok (t, rep) ->
  (List.length (rows t) + outliers_removed rep <= List.length (rows df))%nat /\ (0 <= outliers_pct rep) /\ (outliers_pct rep <= 100).
Proof.
  intro H. destruct (clean_ACTIVE_PLAYERS_rows df t rep H) as [t3 [Hh [_ [Hrows Hrep]]]].
  pose proof (handle_missing_length df t3 Hh) as L1.
  pose proof (dedup_aux_length [] (rows t3)) as L2.
  pose proof (outlier_loop_length (numeric_cols t3) (dedup_aux [] (rows t3))) as L3.
  assert (LT : List.length (rows t) =
    List.length (outlier_loop (numeric_cols t3) (dedup_aux [] (rows t3))))
    by (rewrite Hrows, length_map; reflexivity).
  remember (List.length (outlier_loop (numeric_cols t3) (dedup_aux [] (rows t3)))) as A.
  remember (List.length (dedup_aux [] (rows t3))) as B.
  unfold outlier_report in Hrep. destruct B as [|b] eqn:EB; [discriminate|].
  injection Hrep as <-; cbn [outliers_removed outliers_pct].
  change (match A with 0%nat => S b | S l => (b - l)%nat end) with (S b - A)%nat.
  split; [lia|].
  assert (Py : 0 < inject_Z (Z.of_nat (S b))) by (unfold Qlt; simpl; lia).
  assert (P0 : 0 <= inject_Z (Z.of_nat (S b - A))) by (unfold Qle; simpl; lia).
  assert (P1 : inject_Z (Z.of_nat (S b - A)) <= inject_Z (Z.of_nat (S b))).
  { rewrite <- Zle_Qle. lia. }
  split.
  - apply Qmult_le_0_compat; [|discriminate].
    apply Qle_shift_div_l; [exact Py|]. rewrite Qmult_0_l. exact P0.
  - setoid_replace 100 with (1 * 100) at 2 by reflexivity.
    apply Qmult_le_r; [reflexivity|].
    apply Qle_shift_div_r; [exact Py|]. rewrite Qmult_1_l. exact P1.
Qed.

Lemma clean_ACTIVE_PLAYERS_report_bounds_witness :
  exists t rep, clean_ACTIVE_PLAYERS weights_table = Ok (t, rep) /\ (List.length (rows t) + outliers_removed rep <= List.length (rows weights_table))%nat /\ (0 <= outliers_pct rep) /\ (outliers_pct rep <= 100).
Proof.
  destruct (clean_ACTIVE_PLAYERS weights_table) as [[t rep]|e] eqn:E.
  - exists t, rep. split; [reflexivity|].
    apply (clean_ACTIVE_PLAYERS_report_bounds weights_table t rep); exact E.
  - vm_compute in E; discriminate.
Defined.


(** ** Extra properties of [clean_advanced_team_stats] *)

Lemma gp_positive_columns t : columns (gp_positive t) = columns t.
Proof. unfold gp_positive; destruct (has_col "GP" t); reflexivity. Qed.

Lemma gp_positive_sub t r : In r (rows (gp_positive t)) -> In r (rows t).
Proof.
  unfold gp_positive; destruct (has_col "GP" t); simpl; auto.
  intro H; apply filter_In in H; tauto.
Qed.

Lemma gp_positive_gp t r :
  In r (rows (gp_positive t)) -> has_col "GP" (gp_positive t) = true ->
  exists v, col_cell "GP" (gp_positive t) (snd r) = Num v /\ 0 < v.
Proof.
  unfold col_cell. rewrite gp_positive_columns. intros Hr Hg.
  unfold has_col in Hg; rewrite gp_positive_columns in Hg.
  unfold gp_positive, has_col in Hr.
  destruct (col_index "GP" (columns t)) as [i|] eqn:Ei; [|discriminate].
  unfold filter_rows in Hr; simpl in Hr. apply filter_In in Hr as [_ Hp].
  unfold col_cell in Hp; rewrite Ei in Hp.
  destruct (cell_at i (snd r)) as [v| |]; try discriminate.
  exists v; split; auto.
  apply Qnot_le_lt. intro Hle. apply Qle_bool_iff in Hle. rewrite Hle in Hp. discriminate.
Qed.

Lemma labels_from_trans t1 t2 t3 : labels_from t1 t2 -> labels_from t2 t3 -> labels_from t1 t3.
Proof.
  intros H12 H23 r Hr. destruct (H23 r Hr) as [r1 Hr1].
  destruct (H12 _ Hr1) as [r0 Hr0]. eauto.
Qed.

Lemma labels_from_map_rows f t : labels_from t (map_rows f t).
Proof.
  intros r Hr; simpl in Hr. apply in_map_iff in Hr as [[k r0] [<- Hin]]. exists r0; exact Hin.
Qed.

Lemma labels_from_filter p t : labels_from t (filter_rows p t).
Proof.
  intros r Hr; simpl in Hr. apply filter_In in Hr as [Hin _]. destruct r as [k r0]; exists r0; exact Hin.
Qed.

Lemma labels_from_refl t : labels_from t t.
Proof. intros [k r0] Hr; exists r0; exact Hr. Qed.

Lemma labels_from_select keep t : labels_from t (select_columns keep t).
Proof.
  intros r Hr; simpl in Hr. apply in_map_iff in Hr as [[k r0] [<- Hin]]. exists r0; exact Hin.
Qed.

Lemma labels_from_update_col name d f t : labels_from t (update_col name d f t).
Proof.
  unfold update_col. destruct (col_index name (columns t)).
  - apply labels_from_map_rows.
  - apply labels_from_refl.
Qed.

Lemma labels_from_numeric_fold cs t :
  labels_from t (fold_left (fun acc c => if has_col c acc then update_col c Numeric to_numeric_cell acc else acc) cs t).
Proof.
  revert t; induction cs as [|c cs IH]; intro t; simpl; [apply labels_from_refl|].
  eapply labels_from_trans; [|apply IH].
  destruct (has_col c t); [apply labels_from_update_col|apply labels_from_refl].
Qed.

(** The table the first block of [clean_advanced_team_stats] writes has
    no missing cell; when it has a [GP] column every row's [GP] is a
    positive number; and each of its rows keeps the index label of a row
    of the loaded table. *)
Theorem advanced_cleaned_no_missing_gp_positive (df : table) :
  forall r, In r (rows (advanced_cleaned df)) ->
    existsb is_na (snd r) = false /\
    (has_col "GP" (advanced_cleaned df) = true ->
       exists v, col_cell "GP" (advanced_cleaned df) (snd r) = Num v /\ 0 < v) /\
    exists r0, In (fst r, r0) (rows df).
Proof.
  intros r Hr. unfold advanced_cleaned in *.
  set (t1 := select_columns columns_to_keep df) in *.
  set (t2 := if has_col "TEAM_NAME" t1 then update_col "TEAM_NAME" Object str_strip_cell t1 else t1) in *.
  set (t3 := fold_left (fun acc c => if has_col c acc then update_col c Numeric to_numeric_cell acc else acc)
              team_numeric_cols t2) in *.
  assert (Hr4 : In r (rows (dropna_all t3))) by (apply gp_positive_sub; exact Hr).
  split; [|split].
  - unfold dropna_all, filter_rows in Hr4; simpl in Hr4. apply filter_In in Hr4 as [_ Hn].
    apply negb_true_iff; exact Hn.
  - apply gp_positive_gp; exact Hr.
  - assert (L : labels_from df (dropna_all t3)).
    { eapply labels_from_trans; [apply labels_from_select|].
      eapply labels_from_trans; [|apply labels_from_filter].
      eapply labels_from_trans; [|apply labels_from_numeric_fold].
      unfold t2; destruct (has_col "TEAM_NAME" t1); [apply labels_from_update_col|apply labels_from_refl]. }
    apply L; exact Hr4.
Qed.

Lemma advanced_cleaned_no_missing_gp_positive_witness :
  let r := hd (O, []) (rows (advanced_cleaned raw_teams)) in
  In r (rows (advanced_cleaned raw_teams)) /\
  existsb is_na (snd r) = false /\
  (has_col "GP" (advanced_cleaned raw_teams) = true ->
     exists v, col_cell "GP" (advanced_cleaned raw_teams) (snd r) = Num v /\ 0 < v) /\
  exists r0, In (fst r, r0) (rows raw_teams).
Proof.
  intro r. assert (H : In r (rows (advanced_cleaned raw_teams))) by (vm_compute; left; reflexivity).
  split; [exact H|]. apply advanced_cleaned_no_missing_gp_positive; exact H.
Defined.

(** ** Extra properties of [clean_league_standings] *)

Lemma range_filter_spec name keep t t' :
  range_filter name keep t = EOk t' ->
  columns t' = columns t /\
  forall r, In r (rows t') -> In r (rows t) /\
    forall i, col_index name (columns t) = Some i -> exists v, cell_at i (snd r) = Num v /\ keep v = true.
Proof.
  unfold range_filter. destruct (col_index name (columns t)) as [i|] eqn:Ei.
  - destruct (existsb _ (rows t)); [discriminate|].
    intro E; inversion E; subst t'; clear E. split; [reflexivity|].
    intros r Hr; simpl in Hr. apply filter_In in Hr as [Hr Hk]. split; auto.
    intros j Ej; inversion Ej; subst j.
    destruct (cell_at i (snd r)) as [v| |]; try discriminate. eauto.
  - intro E; inversion E; subst t'. split; [reflexivity|]. intros r Hr; split; auto.
    intros; discriminate.
Qed.

(** After a successful [clean_league_standings], every row's [WinPCT]
    (when the column exists) is a number in [[0, 1]] and its [PointsPG]
    (when the column exists) a number in [(60, 160)]: missing values there
    were filled with 0 first, so a missing [WinPCT] is kept as 0 while a
    missing [PointsPG] drops the row. *)
Theorem league_standings_ranges (df t : table) :
  league_cleaned df = EOk t ->
  forall r, In r (rows t) ->
    (forall i, col_index "WinPCT" (columns t) = Some i ->
       exists v, cell_at i (snd r) = Num v /\ 0 <= v /\ v <= 1) /\
    (forall i, col_index "PointsPG" (columns t) = Some i ->
       exists v, cell_at i (snd r) = Num v /\ 60 < v /\ v < 160).
Proof.
  unfold league_cleaned. intros H r Hr.
  destruct (str_title_col "TeamCity" _) as [t4|]; simpl in H; [|discriminate].
  destruct (str_title_col "TeamName" t4) as [t5|]; simpl in H; [|discriminate].
  destruct (range_filter "WinPCT" winpct_ok t5) as [t6|] eqn:E6; simpl in H; [|discriminate].
  destruct (range_filter_spec _ _ _ _ E6) as [C6 S6].
  destruct (range_filter_spec _ _ _ _ H) as [C7 S7].
  destruct (S7 r Hr) as [Hr6 P7].
  destruct (S6 r Hr6) as [_ P6].
  rewrite C7. split.
  - intros i Ei. rewrite C6 in Ei. destruct (P6 i Ei) as [v [Hv Hk]].
    exists v; split; auto. unfold winpct_ok in Hk. apply andb_prop in Hk as [A B].
    apply Qle_bool_iff in A, B. split; auto.
  - intros i Ei. destruct (P7 i Ei) as [v [Hv Hk]].
    exists v; split; auto. unfold ppg_ok in Hk. apply andb_prop in Hk as [A B].
    apply negb_true_iff in A, B.
    split; apply Qnot_le_lt; intro L; apply Qle_bool_iff in L; congruence.
Qed.

Lemma league_standings_ranges_witness :
  exists t r, league_cleaned standings_table = EOk t /\ In r (rows t) /\
    (forall i, col_index "WinPCT" (columns t) = Some i ->
       exists v, cell_at i (snd r) = Num v /\ 0 <= v /\ v <= 1) /\
    (forall i, col_index "PointsPG" (columns t) = Some i ->
       exists v, cell_at i (snd r) = Num v /\ 60 < v /\ v < 160).
Proof.
  destruct (league_cleaned standings_table) as [t|e] eqn:E.
  - pose proof E as E'; vm_compute in E'; injection E' as Et.
    exists t, (hd (O, []) (rows t)).
    assert (Hr : In (hd (O, []) (rows t)) (rows t)) by (rewrite <- Et; vm_compute; left; reflexivity).
    split; [reflexivity|split; [exact Hr|]].
    apply league_standings_ranges with standings_table; [exact E | exact Hr].
  - vm_compute in E; discriminate.
Defined.

Lemma col_index_rename_same m n d cols :
  col_index m (map (fun nd => if String.eqb (fst nd) n then (n, d) else nd) cols) = col_index m cols.
Proof.
  induction cols as [|[a da] cs IH]; simpl; auto.
  destruct (String.eqb a n) eqn:E; simpl.
  - apply String.eqb_eq in E; subst a. rewrite IH; reflexivity.
  - rewrite IH; reflexivity.
Qed.

Lemma col_index_update_col m n d f t :
  col_index m (columns (update_col n d f t)) = col_index m (columns t).
Proof.
  unfold update_col. destruct (col_index n (columns t)); simpl; auto.
  apply col_index_rename_same.
Qed.

Lemma nth_error_update_at_other i j f r :
  i <> j -> nth_error (update_at i f r) j = nth_error r j.
Proof.
  revert i j; induction r as [|c cs IH]; intros [|i] [|j] H; simpl; auto; try congruence.
Qed.

Lemma fillna_all_no_na u t : na_only_in [] (fillna_all (Str u) t).
Proof.
  intros r Hr i Hi. simpl in Hr. apply in_map_iff in Hr as [[k r0] [<- _]]. simpl in Hi.
  apply nth_error_In in Hi. apply in_map_iff in Hi as [c [Hc _]].
  destruct c; discriminate.
Qed.

Lemma str_accessor_col_na f n ns t t' :
  na_only_in ns t -> str_accessor_col f n t = EOk t' -> na_only_in (n :: ns) t'.
Proof.
  unfold str_accessor_col. intros P H.
  destruct (col_index n (columns t)) as [i|] eqn:Ei.
  - destruct (snd (nth i (columns t) (n, Object))); [discriminate|].
    inversion H; subst t'; clear H.
    intros r Hr j Hj. unfold update_col in Hr, Hj |- *. rewrite Ei in Hr |- *.
    simpl in Hr. apply in_map_iff in Hr as [[k r0] [<- Hin]]. simpl in Hj.
    destruct (Nat.eq_dec i j) as [<-|Hne].
    + exists n; split; [left; auto|]. simpl. rewrite col_index_rename_same; exact Ei.
    + rewrite nth_error_update_at_other in Hj by exact Hne.
      destruct (P (k, r0) Hin j Hj) as [m [Hm Em]].
      exists m; split; [right; auto|]. simpl. rewrite col_index_rename_same; exact Em.
  - inversion H; subst t'. intros r Hr j Hj. destruct (P r Hr j Hj) as [m [Hm Em]].
    exists m; split; [right; auto|exact Em].
Qed.

Lemma range_filter_na ns name keep t t' :
  na_only_in ns t -> range_filter name keep t = EOk t' -> na_only_in ns t'.
Proof.
  intros P H r Hr i Hi. destruct (range_filter_spec _ _ _ _ H) as [C S].
  destruct (S r Hr) as [Hr0 _]. rewrite C. exact (P r Hr0 i Hi).
Qed.

(** After a successful [clean_league_standings], no cell is missing except
    in [TeamCity] and [TeamName]: every missing value is filled (clinch
    columns with [No], numeric columns with 0, the rest with [Unknown]),
    and only [.str.strip().str.title()] can bring a NaN back, for a
    non-text value of those two columns. *)
Theorem league_standings_no_missing (df t : table) :
  league_cleaned df = EOk t ->
  forall r, In r (rows t) -> forall i,
    col_index "TeamName" (columns t) <> Some i -> col_index "TeamCity" (columns t) <> Some i ->
    nth_error (snd r) i <> Some NA.
Proof.
  unfold league_cleaned. intro H.
  set (t3 := fillna_all (Str "Unknown") _) in H.
  destruct (str_title_col "TeamCity" t3) as [t4|] eqn:E4; simpl in H; [|discriminate].
  destruct (str_title_col "TeamName" t4) as [t5|] eqn:E5; simpl in H; [|discriminate].
  destruct (range_filter "WinPCT" winpct_ok t5) as [t6|] eqn:E6; simpl in H; [|discriminate].
  pose proof (str_accessor_col_na _ _ _ _ _ (fillna_all_no_na "Unknown" _) E4) as P4.
  pose proof (str_accessor_col_na _ _ _ _ _ P4 E5) as P5.
  pose proof (range_filter_na _ _ _ _ _ P5 E6) as P6.
  pose proof (range_filter_na _ _ _ _ _ P6 H) as P7.
  intros r Hr i N1 N2 Hi. destruct (P7 r Hr i Hi) as [n [Hn En]].
  destruct Hn as [<-|[<-|[]]]; contradiction.
Qed.

Lemma league_standings_no_missing_witness :
  exists t r, league_cleaned standings_table = EOk t /\ In r (rows t) /\
    col_index "TeamName" (columns t) <> Some 3%nat /\ col_index "TeamCity" (columns t) <> Some 3%nat /\
    nth_error (snd r) 3 <> Some NA.
Proof.
  destruct (league_cleaned standings_table) as [t|e] eqn:E.
  - pose proof E as E'; vm_compute in E'; injection E' as Et.
    exists t, (hd (O, []) (rows t)).
    assert (Hr : In (hd (O, []) (rows t)) (rows t)) by (rewrite <- Et; vm_compute; left; reflexivity).
    assert (N1 : col_index "TeamName" (columns t) <> Some 3%nat) by (rewrite <- Et; vm_compute; discriminate).
    assert (N2 : col_index "TeamCity" (columns t) <> Some 3%nat) by (rewrite <- Et; vm_compute; discriminate).
    split; [reflexivity|split; [exact Hr|split; [exact N1|split; [exact N2|]]]].
    exact (league_standings_no_missing standings_table t E _ Hr 3 N1 N2).
  - vm_compute in E; discriminate.
Defined.

Lemma col_index_some_nth n cols i :
  col_index n cols = Some i -> exists d, nth_error cols i = Some (n, d).
Proof.
  revert i; induction cols as [|[a da] cs IH]; intros i H; simpl in H; [discriminate|].
  destruct (String.eqb a n) eqn:E.
  - inversion H; subst i. apply String.eqb_eq in E; subst a. simpl; eauto.
  - destruct (col_index n cs) as [j|] eqn:Ej; simpl in H; [|discriminate].
    inversion H; subst i. simpl. apply IH; reflexivity.
Qed.

Lemma col_index_distinct a b cols i j :
  col_index a cols = Some i -> col_index b cols = Some j -> a <> b -> i <> j.
Proof.
  intros Ha Hb Hab <-.
  destruct (col_index_some_nth _ _ _ Ha) as [d1 H1]. destruct (col_index_some_nth _ _ _ Hb) as [d2 H2].
  rewrite H1 in H2; inversion H2; contradiction.
Qed.

Lemma col_at_update_col n dn i c d f t :
  c <> n -> col_at n dn i t -> col_at n dn i (update_col c d f t).
Proof.
  intros Hc [Hi Hn]. split; [rewrite col_index_update_col; exact Hi|].
  unfold update_col. destruct (col_index c (columns t)); simpl; auto.
  rewrite nth_error_map, Hn. simpl. destruct (String.eqb n c) eqn:E; auto.
  apply String.eqb_eq in E; congruence.
Qed.

Lemma row_at_update_col n dn i k x c d f t :
  c <> n -> col_at n dn i t -> row_at k i x t -> row_at k i x (update_col c d f t).
Proof.
  intros Hc [Hi _] [r [Hr [Hl Hx]]]. unfold update_col.
  destruct (col_index c (columns t)) as [j|] eqn:Ej; [|exists r; auto].
  exists (update_at j f r). simpl. split; [apply in_map_iff; exists (k, r); auto|].
  rewrite update_at_length. split; auto.
  rewrite cell_at_update_other; auto. eapply col_index_distinct; eauto.
Qed.

Lemma col_at_fillna_text n dn i c v t :
  c <> n -> col_at n dn i t -> col_at n dn i (fillna_text_col c v t).
Proof.
  intros Hc H. unfold fillna_text_col. destruct (col_index c (columns t)); auto.
  apply col_at_update_col; auto.
Qed.

Lemma row_at_fillna_text n dn i k x c v t :
  c <> n -> col_at n dn i t -> row_at k i x t -> row_at k i x (fillna_text_col c v t).
Proof.
  intros Hc H R. unfold fillna_text_col. destruct (col_index c (columns t)); auto.
  eapply row_at_update_col; eauto.
Qed.

Lemma col_index_fillna_text m c v t :
  col_index m (columns (fillna_text_col c v t)) = col_index m (columns t).
Proof.
  unfold fillna_text_col. destruct (col_index c (columns t)); auto. apply col_index_update_col.
Qed.

Lemma nth_error_update_col_other n dn i c d f t :
  c <> n -> nth_error (columns t) i = Some (n, dn) -> nth_error (columns (update_col c d f t)) i = Some (n, dn).
Proof.
  intros Hc Hn. unfold update_col. destruct (col_index c (columns t)); simpl; auto.
  rewrite nth_error_map, Hn. simpl. destruct (String.eqb n c) eqn:E; auto.
  apply String.eqb_eq in E; congruence.
Qed.

Lemma clinch_fold_keeps n dn i k x ts t :
  ~ In n ts -> col_at n dn i t -> row_at k i x t ->
  let t' := fold_left (fun acc c => fillna_text_col c "No" acc) ts t in
  col_at n dn i t' /\ row_at k i x t' /\ forall m, col_index m (columns t') = col_index m (columns t).
Proof.
  revert t; induction ts as [|c cs IH]; intros t Hn C R; simpl; [auto|].
  assert (Hc : c <> n) by (intro; apply Hn; left; auto).
  destruct (IH (fillna_text_col c "No" t)) as [C' [R' M']].
  - intro; apply Hn; right; auto.
  - apply col_at_fillna_text; auto.
  - apply (row_at_fillna_text n dn); auto.
  - split; [exact C'|split; [exact R'|]]. intro m. rewrite M'. apply col_index_fillna_text.
Qed.

(** Object columns: a text column other than the clinch columns keeps its
    dtype through the clinch step. *)
Lemma clinch_fold_dtype n j dn ts t :
  ~ In n ts -> col_at n dn j t ->
  col_at n dn j (fold_left (fun acc c => fillna_text_col c "No" acc) ts t).
Proof.
  revert t; induction ts as [|c cs IH]; intros t Hn C; simpl; auto.
  apply IH; [intro; apply Hn; right; auto|]. apply col_at_fillna_text; auto.
  intro; apply Hn; left; auto.
Qed.

Lemma fill_numeric_zero_columns t : columns (fill_numeric_zero t) = columns t.
Proof. unfold fill_numeric_zero. apply (fold_map_rows_columns (fun _ => fill_cell (Num 0))). Qed.

Lemma row_at_fill_numeric_zero n i k x t :
  col_at n Object i t -> row_at k i x t -> row_at k i x (fill_numeric_zero t).
Proof.
  intros [_ Hn] [r [Hr [Hl Hx]]]. unfold fill_numeric_zero.
  rewrite (fold_map_rows_update (fun _ => fill_cell (Num 0))).
  exists (update_all (fun _ => fill_cell (Num 0)) (numeric_cols t) r). simpl.
  split; [apply in_map_iff; exists (k, r); auto|].
  rewrite update_all_length. split; auto.
  rewrite cell_at_update_all_notin; auto.
  intro Hin. unfold numeric_cols in Hin. apply indices_from_spec in Hin as [_ [n' [d' [Hn' Hd']]]].
  rewrite Nat.sub_0_r, Hn in Hn'. inversion Hn'; subst d'. discriminate.
Qed.

Lemma row_at_fillna_all k i x v t :
  row_at k i x t -> row_at k i (fill_cell v x) (fillna_all v t).
Proof.
  intros [r [Hr [Hl Hx]]]. exists (map (fill_cell v) r). simpl.
  split; [apply in_map_iff; exists (k, r); auto|].
  rewrite length_map. split; auto.
  unfold cell_at in *. rewrite nth_indep with (d' := fill_cell v NA) by (rewrite length_map; exact Hl).
  rewrite map_nth, Hx. reflexivity.
Qed.

Lemma str_accessor_col_ok f c t :
  match col_index c (columns t) with
  | Some j => nth_error (columns t) j = Some (c, Object)
  | None => True
  end ->
  str_accessor_col f c t = EOk (match col_index c (columns t) with
                                | Some _ => update_col c Object f t
                                | None => t end).
Proof.
  unfold str_accessor_col. destruct (col_index c (columns t)) as [j|]; auto.
  intro H. rewrite (nth_error_nth _ _ _ H). reflexivity.
Qed.

Lemma str_accessor_col_keeps f c n i k y t :
  c <> n -> col_at n Object i t -> row_at k i y t ->
  (forall j, col_index c (columns t) = Some j -> nth_error (columns t) j = Some (c, Object)) ->
  exists t', str_accessor_col f c t = EOk t' /\ col_at n Object i t' /\ row_at k i y t' /\
    (forall m, col_index m (columns t') = col_index m (columns t)) /\
    (forall m dm j, m <> c -> nth_error (columns t) j = Some (m, dm) -> nth_error (columns t') j = Some (m, dm)).
Proof.
  intros Hc C R Hj.
  assert (Hok : match col_index c (columns t) with
                | Some j => nth_error (columns t) j = Some (c, Object)
                | None => True end) by (destruct (col_index c (columns t)); auto).
  rewrite (str_accessor_col_ok f c t Hok).
  destruct (col_index c (columns t)) as [j|] eqn:Ej.
  - eexists; split; [reflexivity|].
    split; [apply col_at_update_col; auto|].
    split; [apply (row_at_update_col n Object); auto|].
    split; [intro m; apply col_index_update_col|].
    intros m dm j' Hm Hn. apply nth_error_update_col_other; auto.
  - eexists; split; [reflexivity|]. repeat split; auto; apply C.
Qed.

Lemma range_filter_text_raises n i k s keep t :
  col_index n (columns t) = Some i -> row_at k i (Str s) t -> range_filter n keep t = EErr TypeError.
Proof.
  intros Hi [r [Hr [_ Hx]]]. unfold range_filter. rewrite Hi.
  replace (existsb _ (rows t)) with true; [reflexivity|].
  symmetry. apply existsb_exists. exists (k, r). split; auto. simpl. rewrite Hx. reflexivity.
Qed.

(** [clean_league_standings] raises [TypeError] (it is not caught: only
    [FileNotFoundError] is) when [WinPCT] is a text (object) column and
    some row's [WinPCT] is not a number: a missing one has become
    ['Unknown'] by then, and comparing a text with [0.0] fails. This
    assumes [TeamCity] and [TeamName], where present, are text columns
    (otherwise [.str] raises [AttributeError] first). *)
Theorem league_standings_text_winpct_raises (df : table) (i k : nat) (x : cell) :
  col_at "WinPCT" Object i df -> row_at k i x df -> (forall q, x <> Num q) ->
  (forall c j, In c ["TeamCity"; "TeamName"] -> col_index c (columns df) = Some j ->
     nth_error (columns df) j = Some (c, Object)) ->
  league_cleaned df = EErr TypeError.
Proof.
  intros C R Hx Htext. unfold league_cleaned.
  set (t1 := fold_left (fun acc c => fillna_text_col c "No" acc) clinch_cols df).
  assert (NW : ~ In "WinPCT" clinch_cols) by (simpl; intuition discriminate).
  destruct (clinch_fold_keeps "WinPCT" Object i k x clinch_cols df NW C R) as [C1 [R1 M1]].
  fold t1 in C1, R1, M1.
  assert (T1 : forall c j, In c ["TeamCity"; "TeamName"] -> col_index c (columns t1) = Some j ->
                 nth_error (columns t1) j = Some (c, Object)).
  { intros c j Hc Hj. rewrite M1 in Hj. pose proof (Htext c j Hc Hj) as Hn.
    assert (Nc : ~ In c clinch_cols) by (simpl in Hc |- *; intuition (subst; discriminate)).
    exact (proj2 (clinch_fold_dtype c j Object clinch_cols df Nc (conj Hj Hn))). }
  set (t2 := fill_numeric_zero t1).
  pose proof (row_at_fill_numeric_zero "WinPCT" i k x t1 C1 R1) as R2.
  assert (C2 : col_at "WinPCT" Object i t2) by (unfold col_at, t2; rewrite fill_numeric_zero_columns; exact C1).
  set (t3 := fillna_all (Str "Unknown") t2).
  pose proof (row_at_fillna_all k i x (Str "Unknown") t2 R2) as R3. fold t3 in R3.
  assert (C3 : col_at "WinPCT" Object i t3) by exact C2.
  assert (Cols3 : columns t3 = columns t1) by (unfold t3, t2; simpl; apply fill_numeric_zero_columns).
  destruct (str_accessor_col_keeps strip_title_cell "TeamCity" "WinPCT" i k _ t3 ltac:(discriminate) C3 R3) as
    [t4 [E4 [C4 [R4 [M4 N4]]]]].
  { intros j Hj. rewrite Cols3 in *. apply T1; [left; auto | exact Hj]. }
  unfold str_title_col; rewrite E4; simpl.
  destruct (str_accessor_col_keeps strip_title_cell "TeamName" "WinPCT" i k _ t4 ltac:(discriminate) C4 R4) as
    [t5 [E5 [C5 [R5 _]]]].
  { intros j Hj. rewrite M4, Cols3 in Hj. apply N4; [discriminate|]. rewrite Cols3.
    apply T1; [right; left; auto | exact Hj]. }
  rewrite E5; simpl.
  destruct x as [q| s |]; [exfalso; exact (Hx q eq_refl)| |].
  - rewrite (range_filter_text_raises "WinPCT" i k s winpct_ok t5 (proj1 C5) R5). reflexivity.
  - rewrite (range_filter_text_raises "WinPCT" i k "Unknown" winpct_ok t5 (proj1 C5) R5). reflexivity.
Qed.

Lemma league_standings_text_winpct_raises_witness :
  col_at "WinPCT" Object 1 standings_text_winpct /\
  row_at 0 1 (Str "55%") standings_text_winpct /\
  league_cleaned standings_text_winpct = EErr TypeError.
Proof.
  assert (C : col_at "WinPCT" Object 1 standings_text_winpct) by (split; reflexivity).
  assert (R : row_at 0 1 (Str "55%") standings_text_winpct).
  { exists [Str "denver"; Str "55%"; Num 115]. split; [left; reflexivity|split; [simpl; lia|reflexivity]]. }
  split; [exact C|split; [exact R|]].
  apply (league_standings_text_winpct_raises standings_text_winpct 1 0 (Str "55%") C R).
  - intros q; discriminate.
  - intros c j [<-|[<-|[]]] Hj; vm_compute in Hj; [inversion Hj; subst j; reflexivity | discriminate].
Defined.


(** ** Extra properties of the name-cleaning functions *)

Lemma col_index_retype n h j cols :
  col_index n (retype_filled h j cols) = col_index n cols.
Proof.
  revert j; induction cols as [|[a d] cs IH]; intro j; simpl; auto.
  rewrite IH; reflexivity.
Qed.

Lemma nth_error_retype h j cols i :
  nth_error (retype_filled h j cols) i =
  option_map (fun nd => (fst nd, if h (j + i)%nat then Object else snd nd)) (nth_error cols i).
Proof.
  revert j i; induction cols as [|[a d] cs IH]; intros j [|i]; simpl; auto.
  - rewrite Nat.add_0_r; reflexivity.
  - rewrite IH. replace (S j + i)%nat with (j + S i)%nat by lia. reflexivity.
Qed.

(** [clean_get_all_teams] raises [AttributeError] when [full_name] is a
    numeric column without missing values: [fillna('Unknown')] then
    leaves its dtype numeric, and [.str] refuses it. *)
Theorem clean_get_all_teams_numeric_name_raises (df : table) (i : nat) :
  col_at "full_name" Numeric i df ->
  (forall r, In r (rows df) -> cell_at i (snd r) <> NA) ->
  clean_get_all_teams df = EErr AttributeError.
Proof.
  intros [Hi Hn] Hna. unfold clean_get_all_teams, clean_names. simpl.
  unfold title_required, str_title_col, str_accessor_col. simpl.
  rewrite col_index_retype, Hi.
  rewrite (nth_error_nth _ _ _ (eq_trans (nth_error_retype _ 0 (columns df) i) (f_equal _ Hn))).
  simpl.
  replace (existsb (fun r => is_na (cell_at i (snd r))) (rows df)) with false; [reflexivity|].
  symmetry. apply Bool.not_true_iff_false. intro E. apply existsb_exists in E as [r [Hr E]].
  apply (Hna r Hr). destruct (cell_at i (snd r)); simpl in E; congruence.
Qed.

Lemma clean_get_all_teams_numeric_name_raises_witness :
  col_at "full_name" Numeric 1 teams_numeric_names /\
  clean_get_all_teams teams_numeric_names = EErr AttributeError.
Proof.
  assert (C : col_at "full_name" Numeric 1 teams_numeric_names) by (split; reflexivity).
  split; [exact C|].
  apply (clean_get_all_teams_numeric_name_raises teams_numeric_names 1 C).
  intros r [<-|[]]; discriminate.
Defined.

Lemma row_eqb_cell r r' i : row_eqb r r' = true -> cell_eqb (cell_at i r) (cell_at i r') = true.
Proof.
  revert r' i; induction r as [|a r IH]; intros [|b r'] i H; simpl in H; try discriminate.
  - destruct i; reflexivity.
  - apply andb_prop in H as [H1 H2]. destruct i; [exact H1|]. apply (IH r' i H2).
Qed.

Lemma cell_eqb_str s c : cell_eqb (Str s) c = true -> c = Str s.
Proof. destruct c; simpl; try discriminate. intro H; apply String.eqb_eq in H; congruence. Qed.

Lemma drop_duplicates_keeps_class t k r :
  In (k, r) (rows t) -> exists k' r', In (k', r') (rows (drop_duplicates t)) /\ row_eqb r r' = true.
Proof.
  intro H. pose proof (dedup_aux_class [] (rows t) r) as C. simpl in C.
  assert (Hf : In (k, r) (filter (fun x => row_eqb r (snd x)) (rows t)))
    by (apply filter_In; split; auto; apply row_eqb_refl).
  destruct (filter (fun x => row_eqb r (snd x)) (rows t)) as [|y ys] eqn:E; [destruct Hf|].
  simpl in C. assert (Hy : In y (filter (fun x => row_eqb r (snd x)) (dedup_aux [] (rows t))))
    by (rewrite C; left; reflexivity).
  apply filter_In in Hy as [Hy Hr]. destruct y as [k' r']. exists k', r'. split; auto.
Qed.

Lemma title_required_step m i t t' :
  title_required m t = EOk t' ->
  (forall m', col_index m' (columns t') = col_index m' (columns t)) /\
  (text_at i t -> text_at i t') /\ (titled_at i t -> titled_at i t') /\
  (text_at i t -> col_index m (columns t) = Some i -> titled_at i t').
Proof.
  unfold title_required, str_title_col, str_accessor_col.
  destruct (col_index m (columns t)) as [j|] eqn:Ej; [|discriminate].
  destruct (snd (nth j (columns t) (m, Object))); [discriminate|].
  intro E; inversion E; subst t'; clear E.
  split; [intro m'; apply col_index_update_col|].
  unfold update_col; rewrite Ej.
  assert (Other : forall r, In r (rows (map_rows (update_at j strip_title_cell) t)) ->
                  j <> i -> exists r0, In r0 (rows t) /\ cell_at i (snd r) = cell_at i (snd r0)).
  { intros r Hr Hji. simpl in Hr. apply in_map_iff in Hr as [r0 [<- Hr0]]. exists r0; split; auto.
    simpl. apply cell_at_update_other. auto. }
  split; [|split].
  - intros A r Hr. destruct (Nat.eq_dec j i) as [<-|Hji].
    + simpl in Hr. apply in_map_iff in Hr as [r0 [<- Hr0]]. destruct (A r0 Hr0) as [s Hs]. simpl.
      assert (Hl : (j < List.length (snd r0))%nat).
      { destruct (Nat.lt_ge_cases j (List.length (snd r0))) as [L|L]; auto.
        unfold cell_at in Hs. rewrite nth_overflow in Hs by exact L. discriminate. }
      rewrite cell_at_update_same by exact Hl. rewrite Hs. simpl; eauto.
    + destruct (Other r Hr Hji) as [r0 [Hr0 Hc]]. rewrite Hc. apply A; exact Hr0.
  - intros B r Hr. destruct (Nat.eq_dec j i) as [<-|Hji].
    + simpl in Hr. apply in_map_iff in Hr as [r0 [<- Hr0]]. destruct (B r0 Hr0) as [s Hs]. simpl.
      assert (Hl : (j < List.length (snd r0))%nat).
      { destruct (Nat.lt_ge_cases j (List.length (snd r0))) as [L|L]; auto.
        unfold cell_at in Hs. rewrite nth_overflow in Hs by exact L. discriminate. }
      rewrite cell_at_update_same by exact Hl. rewrite Hs. simpl; eauto.
    + destruct (Other r Hr Hji) as [r0 [Hr0 Hc]]. rewrite Hc. apply B; exact Hr0.
  - intros A Hji r Hr. inversion Hji; subst j.
    simpl in Hr. apply in_map_iff in Hr as [r0 [<- Hr0]]. destruct (A r0 Hr0) as [s Hs]. simpl.
    assert (Hl : (i < List.length (snd r0))%nat).
    { destruct (Nat.lt_ge_cases i (List.length (snd r0))) as [L|L]; auto.
      unfold cell_at in Hs. rewrite nth_overflow in Hs by exact L. discriminate. }
    rewrite cell_at_update_same by exact Hl. rewrite Hs. simpl; eauto.
Qed.

Lemma title_fold_err ns e :
  fold_left (fun acc m => ebind acc (title_required m)) ns (EErr e) = EErr e.
Proof. induction ns as [|m ns IH]; simpl; auto. Qed.

Lemma title_fold_titled ns i t0 t :
  fold_left (fun acc m => ebind acc (title_required m)) ns (EOk t0) = EOk t ->
  titled_at i t0 -> titled_at i t.
Proof.
  revert t0; induction ns as [|m ns IH]; intros t0 H B; simpl in H.
  - inversion H; subst; exact B.
  - destruct (title_required m t0) as [t1|e] eqn:E1; simpl in H.
    + destruct (title_required_step m i t0 t1 E1) as [_ [_ [TB _]]]. eapply IH; eauto.
    + rewrite title_fold_err in H; discriminate.
Qed.

Lemma title_fold_main ns n i t0 t :
  fold_left (fun acc m => ebind acc (title_required m)) ns (EOk t0) = EOk t ->
  text_at i t0 ->
  (forall m', col_index m' (columns t) = col_index m' (columns t0)) /\ text_at i t /\
  (In n ns -> col_index n (columns t0) = Some i -> titled_at i t).
Proof.
  revert t0; induction ns as [|m ns IH]; intros t0 H A; simpl in H.
  - inversion H; subst. split; [auto|split; [auto|intros []]].
  - destruct (title_required m t0) as [t1|e] eqn:E1; simpl in H;
      [|rewrite title_fold_err in H; discriminate].
    destruct (title_required_step m i t0 t1 E1) as [M1 [TA [_ TC]]].
    destruct (IH t1 H (TA A)) as [M [At Bt]].
    split; [intro m'; rewrite M, M1; reflexivity|split; [exact At|]].
    intros [<-|Hin] Hn.
    + apply (title_fold_titled ns i t1 t H). apply TC; auto.
    + apply Bt; auto. rewrite M1; exact Hn.
Qed.

Lemma cell_at_map_fill v r i :
  (i < List.length r)%nat -> cell_at i (map (fill_cell v) r) = fill_cell v (cell_at i r).
Proof.
  intro Hl. unfold cell_at.
  rewrite nth_indep with (d' := fill_cell v NA) by (rewrite length_map; exact Hl).
  apply map_nth.
Qed.

Lemma col_index_lt n cols i : col_index n cols = Some i -> (i < List.length cols)%nat.
Proof.
  intro H. destruct (col_index_some_nth _ _ _ H) as [d Hd].
  apply nth_error_Some. rewrite Hd; discriminate.
Qed.

Lemma title_required_keeps_unknown m i t t' :
  title_required m t = EOk t' ->
  (exists r, In r (rows t) /\ cell_at i (snd r) = Str "Unknown") ->
  exists r, In r (rows t') /\ cell_at i (snd r) = Str "Unknown".
Proof.
  unfold title_required, str_title_col, str_accessor_col.
  destruct (col_index m (columns t)) as [j|] eqn:Ej; [|discriminate].
  destruct (snd (nth j (columns t) (m, Object))); [discriminate|].
  intro E; inversion E; subst t'; clear E.
  intros [[k r] [Hr Hc]]. unfold update_col; rewrite Ej. simpl.
  exists (k, update_at j strip_title_cell r). split; [apply in_map_iff; exists (k, r); auto|]. simpl.
  destruct (Nat.eq_dec j i) as [<-|Hji].
  - assert (Hl : (j < List.length r)%nat).
    { destruct (Nat.lt_ge_cases j (List.length r)) as [L|L]; auto.
      simpl in Hc; unfold cell_at in Hc. rewrite nth_overflow in Hc by exact L. discriminate. }
    rewrite cell_at_update_same by exact Hl. simpl in Hc. rewrite Hc. vm_compute. reflexivity.
  - rewrite cell_at_update_other by auto. exact Hc.
Qed.

Lemma title_fold_keeps_unknown ns i t0 t :
  fold_left (fun acc m => ebind acc (title_required m)) ns (EOk t0) = EOk t ->
  (exists r, In r (rows t0) /\ cell_at i (snd r) = Str "Unknown") ->
  exists r, In r (rows t) /\ cell_at i (snd r) = Str "Unknown".
Proof.
  revert t0; induction ns as [|m ns IH]; intros t0 H U; simpl in H.
  - inversion H; subst; exact U.
  - destruct (title_required m t0) as [t1|e] eqn:E1; simpl in H;
      [|rewrite title_fold_err in H; discriminate].
    apply (IH t1 H). exact (title_required_keeps_unknown m i t0 t1 E1 U).
Qed.

(** The name-cleaning functions ([clean_get_all_teams],
    [clean_get_all_players_of_all_time], [clean_player_info_by_full_name]):
    when they succeed and a name column holds only texts or missing values,
    every written row has a stripped, title-cased text there, and a
    missing name is written as [Unknown] (on a row that survives the
    removal of duplicates). *)
Theorem clean_names_titled (names : list string) (df t : table) (n : string) (i : nat) :
  well_formed df -> clean_names names df = EOk t -> In n names -> col_index n (columns df) = Some i ->
  (forall r, In r (rows df) -> forall q, cell_at i (snd r) <> Num q) ->
  (forall r, In r (rows t) -> exists s, cell_at i (snd r) = Str (py_title (py_strip s))) /\
  (forall k r0, In (k, r0) (rows df) -> cell_at i r0 = NA ->
     exists r, In r (rows t) /\ cell_at i (snd r) = Str "Unknown").
Proof.
  intros Hwf H Hn Hi Hnum. unfold clean_names in H.
  set (t0 := drop_duplicates (fillna_text_df "Unknown" df)) in H.
  assert (Hlen : forall k r0, In (k, r0) (rows df) -> (i < List.length r0)%nat).
  { intros k r0 Hr0. destruct (Hwf k r0 Hr0) as [L _]. rewrite L. eapply col_index_lt; eauto. }
  assert (Cell0 : forall k r0, In (k, r0) (rows df) ->
            In (k, map (fill_cell (Str "Unknown")) r0) (rows (fillna_text_df "Unknown" df)) /\
            cell_at i (map (fill_cell (Str "Unknown")) r0) = fill_cell (Str "Unknown") (cell_at i r0)).
  { intros k r0 Hr0. split.
    - simpl. apply in_map_iff. exists (k, r0); auto.
    - apply cell_at_map_fill. eapply Hlen; eauto. }
  assert (A0 : text_at i t0).
  { intros [k r] Hr. unfold t0, drop_duplicates in Hr; simpl in Hr. apply dedup_aux_sub in Hr.
    simpl in Hr. apply in_map_iff in Hr as [[k0 r0] [E Hr0]]. inversion E; subst k0 r; clear E.
    simpl. rewrite (proj2 (Cell0 k r0 Hr0)).
    destruct (cell_at i r0) as [q|s|] eqn:Ec; simpl.
    - exfalso. exact (Hnum (k, r0) Hr0 q Ec).
    - eexists; reflexivity.
    - eexists; reflexivity. }
  assert (I0 : col_index n (columns t0) = Some i) by (simpl; rewrite col_index_retype; exact Hi).
  destruct (title_fold_main names n i t0 t H A0) as [_ [_ Bt]].
  split; [exact (Bt Hn I0)|].
  intros k r0 Hr0 Hna.
  apply (title_fold_keeps_unknown names i t0 t H).
  destruct (Cell0 k r0 Hr0) as [Hf Hc].
  destruct (drop_duplicates_keeps_class _ _ _ Hf) as [k' [r' [Hr' Heq]]].
  exists (k', r'). split; [exact Hr'|]. simpl.
  pose proof (row_eqb_cell _ _ i Heq) as Hc'. rewrite Hc, Hna in Hc'.
  change (fill_cell (Str "Unknown") NA) with (Str "Unknown") in Hc'.
  apply cell_eqb_str in Hc'. exact Hc'.
Qed.

Lemma clean_names_titled_witness :
  exists t, well_formed players_table /\ clean_player_info_by_full_name players_table = EOk t /\
    col_index "first_name" (columns players_table) = Some 1%nat /\
    In (1%nat, [Num 2; NA; Str "x"]) (rows players_table) /\
    (forall r, In r (rows t) -> exists s, cell_at 1 (snd r) = Str (py_title (py_strip s))) /\
    exists r, In r (rows t) /\ cell_at 1 (snd r) = Str "Unknown".
Proof.
  assert (Hwf : well_formed players_table).
  { intros k r Hr. simpl in Hr.
    destruct Hr as [E|[E|[E|[]]]]; inversion E; subst; clear E;
      (split; [reflexivity|]); intros [|[|[|i]]] n Hn s; simpl in Hn; try discriminate;
      inversion Hn; try discriminate; destruct i; discriminate. }
  assert (Hnum : forall r, In r (rows players_table) -> forall q, cell_at 1 (snd r) <> Num q).
  { intros r Hr q. simpl in Hr. destruct Hr as [<-|[<-|[<-|[]]]]; discriminate. }
  destruct (clean_player_info_by_full_name players_table) as [t|e] eqn:E.
  - exists t. split; [exact Hwf|split; [reflexivity|split; [reflexivity|split; [simpl; auto|]]]].
    destruct (clean_names_titled ["first_name"; "last_name"] players_table t "first_name" 1
                Hwf E (or_introl eq_refl) eq_refl Hnum) as [P1 P2].
    split; [exact P1|]. apply (P2 1%nat [Num 2; NA; Str "x"]); [simpl; auto|reflexivity].
  - vm_compute in E; discriminate.
Defined.

(** ** Extra properties of [clean_single_player_by_id] *)

Lemma drop_first_col_keeps df n d i k x :
  col_at n d (S i) df -> row_at k (S i) x df ->
  exists c0 cs, columns df = c0 :: cs /\
    drop_first_col df = EOk (mk_table cs (map (fun r => (fst r, tl (snd r))) (rows df))) /\
    col_at n d i (mk_table cs (map (fun r => (fst r, tl (snd r))) (rows df))) /\
    row_at k i x (mk_table cs (map (fun r => (fst r, tl (snd r))) (rows df))).
Proof.
  intros [Hi Hn] [r [Hr [Hl Hx]]]. unfold drop_first_col.
  destruct (columns df) as [|[a da] cs] eqn:Ec; [discriminate|].
  exists (a, da), cs. split; [reflexivity|split; [reflexivity|split]].
  - simpl in Hi. destruct (String.eqb a n); [discriminate|].
    destruct (col_index n cs) as [j|] eqn:Ej; simpl in Hi; inversion Hi; subst j.
    split; [exact Ej|exact Hn].
  - destruct r as [|c r]; [simpl in Hl; lia|].
    exists r. split; [simpl; apply in_map_iff; exists (k, c :: r); auto|].
    simpl in Hl. split; [lia|exact Hx].
Qed.

Lemma row_at_fill_categorical n i k t :
  col_at n Object i t -> row_at k i NA t -> row_at k i (Str "Unknown") (fill_categorical_unknown t).
Proof.
  intros [_ Hn] [r [Hr [Hl Hx]]]. unfold fill_categorical_unknown.
  rewrite (fold_map_rows_update (fun _ => fill_cell (Str "Unknown"))).
  exists (update_all (fun _ => fill_cell (Str "Unknown")) (categorical_cols t) r). simpl.
  split; [apply in_map_iff; exists (k, r); auto|].
  rewrite update_all_length. split; auto.
  rewrite cell_at_update_all_in; auto.
  - rewrite Hx; reflexivity.
  - apply indices_from_NoDup.
  - unfold categorical_cols. apply indices_from_spec. split; [lia|].
    rewrite Nat.sub_0_r. exists n, Object. split; auto.
Qed.

Lemma fill_categorical_unknown_columns t : columns (fill_categorical_unknown t) = columns t.
Proof. unfold fill_categorical_unknown. apply (fold_map_rows_columns (fun _ => fill_cell (Str "Unknown"))). Qed.

Lemma row_at_drop_duplicates k i s t :
  row_at k i (Str s) t -> exists k', row_at k' i (Str s) (drop_duplicates t).
Proof.
  intros [r [Hr [Hl Hx]]].
  destruct (drop_duplicates_keeps_class t k r Hr) as [k' [r' [Hr' Heq]]].
  exists k', r'. split; [exact Hr'|].
  pose proof (row_eqb_cell _ _ i Heq) as Hc. rewrite Hx in Hc. apply cell_eqb_str in Hc.
  split; [|exact Hc].
  destruct (Nat.lt_ge_cases i (List.length r')) as [L|L]; auto.
  unfold cell_at in Hc. rewrite nth_overflow in Hc by exact L. discriminate.
Qed.

Lemma astype_float_col_raises py_float n i k s t :
  py_float s = None -> col_index n (columns t) = Some i -> row_at k i (Str s) t ->
  astype_float_col py_float n t = EErr ValueError.
Proof.
  intros Hs Hi [r [Hr [_ Hx]]]. unfold astype_float_col. rewrite Hi.
  replace (existsb _ (rows t)) with true; [reflexivity|].
  symmetry. apply existsb_exists. exists (k, r). split; auto. simpl. rewrite Hx, Hs. reflexivity.
Qed.

(** [clean_single_player_by_id] raises [ValueError] (uncaught) when
    [PLAYER_AGE] is a text (object) column, not the dropped first one,
    with a missing value: step 3 fills it with ['Unknown'], which
    [astype(float)] cannot convert. This assumes [float('Unknown')] fails,
    and that [TEAM_ABBREVIATION], where present, is a text column. *)
Theorem single_player_unknown_age_raises (py_float : string -> option Q) (df : table) (i k : nat) :
  py_float "Unknown" = None ->
  col_at "PLAYER_AGE" Object (S i) df -> row_at k (S i) NA df ->
  (forall j d, nth_error (columns df) j = Some ("TEAM_ABBREVIATION", d) -> d = Object) ->
  clean_single_player_by_id py_float df = EErr ValueError.
Proof.
  intros Hf C R Hta.
  destruct (drop_first_col_keeps df _ _ _ _ _ C R) as [c0 [cs [Ec [E1 [C1 R1]]]]].
  set (t1 := mk_table cs (map (fun r => (fst r, tl (snd r))) (rows df))) in *.
  unfold clean_single_player_by_id. rewrite E1. simpl.
  set (t2 := fill_numeric_zero t1).
  pose proof (row_at_fill_numeric_zero _ _ _ _ t1 C1 R1) as R2.
  assert (C2 : col_at "PLAYER_AGE" Object i t2) by (unfold col_at, t2; rewrite fill_numeric_zero_columns; exact C1).
  set (t3 := fill_categorical_unknown t2).
  pose proof (row_at_fill_categorical _ _ _ _ C2 R2) as R3. fold t3 in R3.
  assert (C3 : col_at "PLAYER_AGE" Object i t3) by (unfold col_at, t3; rewrite fill_categorical_unknown_columns; exact C2).
  destruct (row_at_drop_duplicates _ _ _ _ R3) as [k' R4].
  set (t4 := drop_duplicates t3) in R4.
  assert (C4 : col_at "PLAYER_AGE" Object i t4) by exact C3.
  assert (Cols4 : columns t4 = cs).
  { unfold t4, t3, t2. simpl. rewrite fill_categorical_unknown_columns, fill_numeric_zero_columns. reflexivity. }
  destruct (str_accessor_col_keeps strip_upper_cell "TEAM_ABBREVIATION" "PLAYER_AGE" i k' _ t4
              ltac:(discriminate) C4 R4) as [t5 [E5 [C5 [R5 _]]]].
  { intros j Hj. rewrite Cols4 in *. destruct (col_index_some_nth _ _ _ Hj) as [d Hd].
    rewrite Hd. f_equal. f_equal. apply (Hta (S j)). rewrite Ec. exact Hd. }
  unfold str_upper_col. fold t4. rewrite E5. simpl.
  exact (astype_float_col_raises py_float _ i k' "Unknown" t5 Hf (proj1 C5) R5).
Qed.

Lemma single_player_unknown_age_raises_witness :
  col_at "PLAYER_AGE" Object 3 jokic_table /\ row_at 1 3 NA jokic_table /\
  clean_single_player_by_id py_float_of_int_text jokic_table = EErr ValueError.
Proof.
  assert (C : col_at "PLAYER_AGE" Object 3 jokic_table) by (split; reflexivity).
  assert (R : row_at 1 3 NA jokic_table).
  { exists [Num 1; Str "2016-17"; Str "den "; NA; NA].
    split; [simpl; right; left; reflexivity|split; [simpl; lia|reflexivity]]. }
  split; [exact C|split; [exact R|]].
  apply (single_player_unknown_age_raises py_float_of_int_text jokic_table 2 1); [vm_compute; reflexivity|exact C|exact R|].
  intros j d Hj. destruct j as [|[|[|[|[|j]]]]]; simpl in Hj; inversion Hj; try reflexivity.
  destruct j; discriminate.
Defined.


(** ** Extra properties of [calculate_descriptive_stats] *)

Lemma filter3_length {A} (p q r : A -> bool) (l : list A) :
  (forall x, In x l -> (Nat.b2n (p x) + Nat.b2n (q x) + Nat.b2n (r x) = 1)%nat) ->
  (List.length (filter p l) + List.length (filter q l) + List.length (filter r l) = List.length l)%nat.
Proof.
  induction l as [|x l IH]; intro H; simpl; auto.
  pose proof (H x (or_introl eq_refl)) as Hx.
  assert (IH' := IH (fun y Hy => H y (or_intror Hy))).
  destruct (p x), (q x), (r x); simpl in *; lia.
Qed.

Lemma column_values_nil_no_num i rs :
  column_values i rs = [] -> forall r, In r rs -> forall v, cell_at i (snd r) <> Num v.
Proof.
  induction rs as [|x rs IH]; intros H r Hr v Hv; [destruct Hr|].
  simpl in H. destruct Hr as [<-|Hr].
  - rewrite Hv in H. discriminate.
  - destruct (cell_at i (snd x)); simpl in H; try discriminate; exact (IH H r Hr v Hv).
Qed.

Lemma iqr_bounds_some xs : xs <> [] -> exists lo hi, iqr_bounds xs = Some (lo, hi).
Proof.
  intro H. unfold iqr_bounds. rewrite !quantile_interp.
  destruct (List.length (sort_Q xs)) eqn:L.
  - rewrite sort_Q_length in L. destruct xs; [congruence|discriminate].
  - eauto.
Qed.

(** The outliers [calculate_descriptive_stats] reports for a column and the
    rows the IQR filter of [clean_ACTIVE_PLAYERS] keeps for it
    ([outlier_step]) use the same bounds and split the rows: every row is
    either an outlier, kept by the filter, or has no number in the column. *)
Theorem column_insight_partition (i : nat) (rs : list (nat * row)) (ins : insight) :
  column_insight i rs = Ok ins ->
  (outlier_count ins + List.length (outlier_step i rs) +
   List.length (filter (fun r => match cell_at i (snd r) with Num _ => false | _ => true end) rs)
   = List.length rs)%nat.
Proof.
  unfold column_insight. destruct (List.length rs) eqn:L; [discriminate|].
  intro E; inversion E; subst ins; clear E. simpl. rewrite <- L.
  unfold outlier_step. apply filter3_length. intros r Hr.
  destruct (column_values i rs) as [|y ys] eqn:Hc.
  - unfold iqr_bounds, quantile; simpl.
    destruct (cell_at i (snd r)) as [v| |] eqn:Ec; simpl; auto.
    exfalso. exact (column_values_nil_no_num i rs Hc r Hr v Ec).
  - rewrite <- Hc. destruct (iqr_bounds_some (column_values i rs) ltac:(rewrite Hc; discriminate)) as [lo [hi B]].
    rewrite B. destruct (cell_at i (snd r)) as [v| |]; simpl; auto.
    destruct (Qle_bool lo v), (Qle_bool v hi); reflexivity.
Qed.

Lemma column_insight_partition_witness :
  exists ins, column_insight 2 (rows weights_table) = Ok ins /\
  (outlier_count ins + List.length (outlier_step 2 (rows weights_table)) +
   List.length (filter (fun r => match cell_at 2 (snd r) with Num _ => false | _ => true end) (rows weights_table))
   = List.length (rows weights_table))%nat.
Proof.
  destruct (column_insight 2 (rows weights_table)) as [ins|e] eqn:E.
  - exists ins. split; [reflexivity|]. exact (column_insight_partition 2 _ ins E).
  - vm_compute in E; discriminate.
Defined.

(** [calculate_descriptive_stats] fails exactly on an empty table with at
    least one numeric column, and then with [ZeroDivisionError] (from
    [outlier_count / len(df)]). *)
Theorem calculate_insights_errors (cols : list nat) (rs : list (nat * row)) :
  (forall e, calculate_insights cols rs = Err e -> e = ZeroDivisionError) /\
  ((exists e, calculate_insights cols rs = Err e) <-> rs = [] /\ cols <> []).
Proof.
  assert (Ins : forall i, rs <> [] -> exists ins, column_insight i rs = Ok ins).
  { intros i H. unfold column_insight. destruct rs; [congruence|]. simpl. eauto. }
  assert (Nil : forall i, column_insight i [] = Err ZeroDivisionError) by reflexivity.
  induction cols as [|i cs [IH1 IH2]]; simpl.
  - split; [intros e E; discriminate|]. split; [intros [e E]; discriminate|intros [_ H]; congruence].
  - destruct rs as [|x rs'].
    + rewrite Nil. simpl. split; [intros e E; inversion E; auto|].
      split; [intros _; split; [reflexivity|discriminate]|intros _; eauto].
    + destruct (Ins i ltac:(discriminate)) as [ins Hi]. rewrite Hi. simpl.
      destruct (calculate_insights cs (x :: rs')) as [rest|e] eqn:Er; simpl.
      * split; [intros e E; discriminate|]. split; [intros [e E]; discriminate|intros [H _]; discriminate].
      * split; [intros e' E; inversion E; subst; apply IH1; reflexivity|].
        split; [intros _|intros [H _]; discriminate].
        destruct (proj1 IH2 (ex_intro _ e eq_refl)) as [H _]. discriminate.
Qed.

Definition mode_inv (xs seen : list Q) (acc : option (Q * nat)) : Prop :=
  match acc with
  | None => seen = []
  | Some (m, cm) =>
      cm = count_Q m xs /\ In m seen /\
      forall y, In y seen -> (count_Q y xs < cm)%nat \/ (count_Q y xs = cm /\ m <= y)
  end.

Lemma mode_fold_inv xs l : forall seen acc,
  StronglySorted Qle l ->
  (forall a b, In a seen -> In b l -> a <= b) ->
  mode_inv xs seen acc ->
  mode_inv xs (seen ++ l) (fold_left (mode_step xs) l acc).
Proof.
  induction l as [|x l IH]; intros seen acc Hs Hle Hi; simpl.
  - rewrite app_nil_r. exact Hi.
  - apply StronglySorted_inv in Hs as [Hs Hx].
    replace (seen ++ x :: l)%list with ((seen ++ [x]) ++ l)%list by (rewrite <- app_assoc; reflexivity).
    apply IH; auto.
    + intros a b Ha Hb. apply in_app_or in Ha as [Ha|[<-|[]]].
      * apply Hle; simpl; auto.
      * rewrite Forall_forall in Hx. auto.
    + unfold mode_step. destruct acc as [[m cm]|]; simpl in Hi |- *.
      * destruct Hi as (Hcm & Hm & Hy).
        destruct (cm <? count_Q x xs)%nat eqn:Lt.
        -- apply Nat.ltb_lt in Lt. simpl. split; [reflexivity|]. split; [apply in_or_app; right; left; reflexivity|].
           intros y Hy'. apply in_app_or in Hy' as [Hy'|[<-|[]]].
           ++ left. destruct (Hy y Hy') as [H|[H _]]; lia.
           ++ right. split; [reflexivity|apply Qle_refl].
        -- apply Nat.ltb_ge in Lt. split; [exact Hcm|]. split; [apply in_or_app; left; exact Hm|].
           intros y Hy'. apply in_app_or in Hy' as [Hy'|[<-|[]]]; [auto|].
           destruct (Nat.eq_dec (count_Q x xs) cm) as [E|E]; [right|left; lia].
           split; [exact E|]. apply Hle; simpl; auto.
      * subst seen. simpl. split; [reflexivity|]. split; [left; reflexivity|].
        intros y [<-|[]]. right. split; [reflexivity|apply Qle_refl].
Qed.

Lemma mode_first_inv xs : mode_inv xs (sort_Q xs) (fold_left (mode_step xs) (sort_Q xs) None).
Proof.
  apply (mode_fold_inv xs (sort_Q xs) [] None (sort_Q_sorted xs)); simpl; tauto.
Qed.

(** [df[col].mode().iloc[0]] ([mode_first]) is a value of the column that
    occurs at least as often as any other, and the smallest of those that
    occur most often. *)
Theorem mode_first_spec (xs : list Q) (m : Q) :
  mode_first xs = Some m ->
  In m xs /\
  forall y, In y xs ->
    (count_Q y xs <= count_Q m xs)%nat /\ (count_Q y xs = count_Q m xs -> m <= y).
Proof.
  unfold mode_first. pose proof (mode_first_inv xs) as H.
  destruct (fold_left (mode_step xs) (sort_Q xs) None) as [[m' cm]|]; simpl; [|discriminate].
  intro E; inversion E; subst m'. clear E.
  destruct H as (-> & Hm & Hy). split; [apply sort_Q_in; exact Hm|].
  intros y Hy'. apply sort_Q_in in Hy'. destruct (Hy y Hy') as [L|[L1 L2]].
  - split; [lia|intro; lia].
  - split; [lia|intros _; exact L2].
Qed.

Lemma mode_first_spec_witness :
  mode_first [3; 1; 3; 1; 2]%Q = Some 1%Q /\
  In 1%Q [3; 1; 3; 1; 2]%Q /\
  forall y, In y [3; 1; 3; 1; 2]%Q ->
    (count_Q y [3; 1; 3; 1; 2]%Q <= count_Q 1%Q [3; 1; 3; 1; 2]%Q)%nat /\
    (count_Q y [3; 1; 3; 1; 2]%Q = count_Q 1%Q [3; 1; 3; 1; 2]%Q -> 1%Q <= y).
Proof.
  assert (E : mode_first [3; 1; 3; 1; 2]%Q = Some 1%Q) by (vm_compute; reflexivity).
  split; [exact E|]. exact (mode_first_spec [3; 1; 3; 1; 2]%Q 1%Q E).
Defined.

(** A column with at least one value has a mode; an empty one has none. *)
Theorem mode_first_none (xs : list Q) : mode_first xs = None <-> xs = [].
Proof.
  unfold mode_first. pose proof (mode_first_inv xs) as H.
  destruct (fold_left (mode_step xs) (sort_Q xs) None) as [[m cm]|]; simpl.
  - split; [discriminate|]. intros ->. destruct H as (_ & [] & _).
  - split; [intros _|reflexivity]. destruct xs as [|x xs]; [reflexivity|].
    pose proof (sort_Q_length (x :: xs)) as L. rewrite H in L. discriminate.
Qed.

(** ** Extra properties of [height_to_inches] *)

Lemma digit_val_char c :
  digit_val c <> None ->
  is_space c = false /\ c <> "-"%char /\ c <> "+"%char /\ c <> "_"%char.
Proof.
  destruct c as [[] [] [] [] [] [] [] []]; intro H;
    (exfalso; apply H; reflexivity) || (split; [reflexivity|split; [discriminate|split; discriminate]]).
Qed.

Lemma digits_value_chars l acc v :
  digits_value l acc = Some v -> forall c, In c l -> digit_val c <> None.
Proof.
  revert acc. induction l as [|d l IH]; intros acc H c Hc; [destruct Hc|].
  simpl in H. destruct (digit_val d) eqn:Ed; [|discriminate].
  destruct Hc as [<-|Hc]; [rewrite Ed; discriminate|exact (IH _ H c Hc)].
Qed.

Lemma digits_underscore l acc v :
  digits_value l acc = Some v -> underscore_digits l acc = Some v.
Proof.
  revert acc. induction l as [|d l IH]; intros acc H; [exact H|].
  pose proof (digits_value_chars _ _ _ H d (or_introl eq_refl)) as Hd.
  destruct (digit_val_char d Hd) as (_ & _ & _ & Hu).
  simpl in H |- *. apply Ascii.eqb_neq in Hu. rewrite Hu.
  destruct (digit_val d); [apply IH; exact H|discriminate].
Qed.

Lemma lstrip_digits l : (forall c, In c l -> digit_val c <> None) -> lstrip l = l.
Proof.
  destruct l as [|c l]; intro H; [reflexivity|]. simpl.
  destruct (digit_val_char c (H c (or_introl eq_refl))) as (-> & _). reflexivity.
Qed.

Lemma py_int_digits (f : list ascii) (a : Z) :
  f <> [] -> digits_value f 0 = Some a -> py_int (string_of_list_ascii f) = Some a.
Proof.
  intros Hn Hf. pose proof (digits_value_chars _ _ _ Hf) as Hc.
  unfold py_int, strip_chars. rewrite list_ascii_of_string_of_list_ascii.
  rewrite (lstrip_digits f Hc), (lstrip_digits (rev f)), rev_involutive
    by (intros c Hr; apply Hc, in_rev, Hr).
  destruct f as [|c l]; [congruence|].
  destruct (digit_val_char c (Hc c (or_introl eq_refl))) as (_ & Hm & Hp & _).
  apply Ascii.eqb_neq in Hm, Hp. rewrite Hm, Hp.
  unfold py_int_unsigned. destruct (digit_val c) eqn:Ec.
  - apply digits_underscore. exact Hf.
  - exfalso. exact (Hc c (or_introl eq_refl) Ec).
Qed.

Lemma split_on_no_sep sep l r :
  (forall c, In c l -> c <> sep) -> split_on sep (l ++ sep :: r) = l :: split_on sep r.
Proof.
  induction l as [|c l IH]; intro H; simpl.
  - rewrite Ascii.eqb_refl. reflexivity.
  - assert (Hc : Ascii.eqb c sep = false) by (apply Ascii.eqb_neq; apply H; left; reflexivity).
    rewrite Hc, IH by (intros d Hd; apply H; right; exact Hd). reflexivity.
Qed.

Lemma split_on_single sep l : (forall c, In c l -> c <> sep) -> split_on sep l = [l].
Proof.
  induction l as [|c l IH]; intro H; [reflexivity|]. simpl.
  assert (Hc : Ascii.eqb c sep = false) by (apply Ascii.eqb_neq; apply H; left; reflexivity).
  rewrite Hc, IH by (intros d Hd; apply H; right; exact Hd). reflexivity.
Qed.

(** A height written as feet, a dash and inches, both in decimal digits
    (["6-8"]), is converted to [feet * 12 + inches] inches. *)
Theorem height_to_inches_feet_inches (f i : list ascii) (a b : Z) :
  f <> [] -> i <> [] ->
  digits_value f 0 = Some a -> digits_value i 0 = Some b ->
  height_to_inches (Str (string_of_list_ascii (f ++ "-"%char :: i))) = Some (inject_Z (a * 12 + b)).
Proof.
  intros Hf Hi Ha Hb.
  assert (Nf : forall c, In c f -> c <> "-"%char)
    by (intros c Hc; exact (proj1 (proj2 (digit_val_char c (digits_value_chars _ _ _ Ha c Hc))))).
  assert (Ni : forall c, In c i -> c <> "-"%char)
    by (intros c Hc; exact (proj1 (proj2 (digit_val_char c (digits_value_chars _ _ _ Hb c Hc))))).
  unfold height_to_inches. rewrite list_ascii_of_string_of_list_ascii.
  assert (Ex : existsb (Ascii.eqb "-"%char) (f ++ "-"%char :: i) = true).
  { apply existsb_exists. exists "-"%char. split; [apply in_or_app; right; left; reflexivity|apply Ascii.eqb_refl]. }
  rewrite Ex. simpl negb. cbv iota.
  rewrite split_on_no_sep, split_on_single by assumption.
  rewrite (py_int_digits f a Hf Ha), (py_int_digits i b Hi Hb). reflexivity.
Qed.

Lemma height_to_inches_feet_inches_witness :
  height_to_inches (Str "6-8") = Some (inject_Z 80).
Proof.
  exact (height_to_inches_feet_inches ["6"%char] ["8"%char] 6 8
           ltac:(discriminate) ltac:(discriminate) eq_refl eq_refl).
Defined.

Lemma split_on_length sep l :
  List.length (split_on sep l) = S (List.length (filter (fun c => Ascii.eqb c sep) l)).
Proof.
  induction l as [|c l IH]; [reflexivity|]. simpl.
  destruct (Ascii.eqb c sep); simpl; [rewrite IH; reflexivity|].
  destruct (split_on sep l) as [|p ps]; simpl in *; [discriminate|exact IH].
Qed.

(** [height_to_inches] gives no height for a text with no dash or with
    more than one dash (["6-8-1"], ["-6-8"]): either the test
    ["-" not in h] or the unpacking of [h.split("-")] fails. *)
Theorem height_to_inches_dash_count (s : string) :
  List.length (filter (fun c => Ascii.eqb c "-"%char) (list_ascii_of_string s)) <> 1%nat ->
  height_to_inches (Str s) = None.
Proof.
  intro H. unfold height_to_inches.
  destruct (existsb (Ascii.eqb "-"%char) (list_ascii_of_string s)) eqn:Ex; simpl negb; cbv iota; [|reflexivity].
  pose proof (split_on_length "-"%char (list_ascii_of_string s)) as L.
  destruct (split_on "-"%char (list_ascii_of_string s)) as [|p [|q [|r rs]]]; try reflexivity.
  simpl in L. injection L as L. congruence.
Qed.

Lemma height_to_inches_dash_count_witness :
  List.length (filter (fun c => Ascii.eqb c "-"%char) (list_ascii_of_string "6-8-1")) <> 1%nat /\
  height_to_inches (Str "6-8-1") = None.
Proof.
  assert (H : List.length (filter (fun c => Ascii.eqb c "-"%char) (list_ascii_of_string "6-8-1")) <> 1%nat)
    by (vm_compute; discriminate).
  split; [exact H|exact (height_to_inches_dash_count "6-8-1" H)].
Defined.
